(** * The autograd notebooks: provenance graphs and their inspector

    Shallow embedding of the two notebooks of the repository:

    - [lesson_1/loss_tracking.ipynb]: the affine model
      [LinearRegressionModel], its [forward], and the recursive printer
      [print_grad_graph] that walks [grad_fn] / [next_functions] links;
    - the multiplication notebook: [mat1], [mat2] and the four
      multiplication entry points applied to them.

    Python objects live in a store indexed by object identity, so that
    shared backward nodes and (hypothetical) cyclic link structures can be
    expressed.  The printer is a fuelled interpreter in a small
    state-and-exception monad over that store and the console.  The
    attributes read are typed as the tensor library provides them
    ([grad_fn] is [None] or an object, [next_functions] a tuple of pairs);
    the interpreter's recursion limit and failures of the console are not
    modelled. *)

From Stdlib Require Import ZArith Lia HexString.
From stdpp Require Import base option list strings gmap relations.

Local Open Scope string_scope.
Local Open Scope list_scope.
Local Open Scope Z_scope.

(** * Part I: the notebooks *)

(** ** Python objects *)

(** Object identities. *)
Abbreviation addr := positive (only parsing).

(** One entry of a [next_functions] tuple: the pair [(f, idx)] where [f] is
    [None] or a reference to a backward node. *)
Abbreviation link := (option addr * Z)%type (only parsing).

(** The attributes of an object that the notebooks look at.  An attribute
    that [hasattr] does not find is [None] at the outer level:
    - [grad_fn = None]: no such attribute; [Some None]: the attribute is
      Python's [None]; [Some (Some g)]: it refers to the object [g];
    - [next_functions = None]: no such attribute; [Some fs]: the tuple [fs];
    - [py_str] is what an f-string renders for the object.
    The last three fields are the tensor library's: [requires_grad] of a
    tensor, [variable] of a gradient accumulator, and the accumulator a leaf
    tensor owns. *)
Record pyobj : Type := PyObj {
  py_str : string;
  grad_fn : option (option addr);
  next_functions : option (list link);
  requires_grad : bool;
  variable : option addr;
  grad_accumulator : option addr
}.

(** An object with neither attribute (an [int], a [str], ...). *)
Definition plain_object (s : string) : pyobj :=
  PyObj s None None false None None.

(** ** The interpreter state and its monad *)

Record world : Type := World {
  heap : gmap addr pyobj;
  next_addr : addr;
  stdout : list string
}.

Inductive exn : Type := AttributeError.

(** How a call ends: it returns, raises, dereferences an identity that the
    store does not hold, or exhausts the interpreter's fuel. *)
Inductive outcome (A : Type) : Type :=
  | Returned (a : A)
  | Raised (e : exn)
  | Stuck
  | OutOfFuel.
Arguments Returned {A} a.
Arguments Raised {A} e.
Arguments Stuck {A}.
Arguments OutOfFuel {A}.

Definition M (A : Type) : Type := world → outcome A * world.

Definition ret {A} (a : A) : M A := λ w, (Returned a, w).

Definition bind {A B} (k : A → M B) (m : M A) : M B := λ w,
  match m w with
  | (Returned a, w') => k a w'
  | (Raised e, w') => (Raised e, w')
  | (Stuck, w') => (Stuck, w')
  | (OutOfFuel, w') => (OutOfFuel, w')
  end.

#[global] Instance M_ret : MRet M := @ret.
#[global] Instance M_bind : MBind M := @bind.

Definition raise {A} (e : exn) : M A := λ w, (Raised e, w).
Definition out_of_fuel {A} : M A := λ w, (OutOfFuel, w).

(** [for x in xs: body x] *)
Fixpoint for_each {A} (xs : list A) (body : A → M unit) : M unit :=
  match xs with
  | [] => ret tt
  | x :: xs' => body x ;; for_each xs' body
  end.

(** Reading the store. *)
Definition deref (a : addr) : M pyobj := λ w,
  match heap w !! a with
  | Some o => (Returned o, w)
  | None => (Stuck, w)
  end.

(** [hasattr(a, 'grad_fn')] and [a.grad_fn] *)
Definition hasattr_grad_fn (a : addr) : M bool :=
  o ← deref a; ret (bool_decide (is_Some (grad_fn o))).
Definition getattr_grad_fn (a : addr) : M (option addr) :=
  o ← deref a;
  match grad_fn o with Some v => ret v | None => raise AttributeError end.

(** [hasattr(a, 'next_functions')] and [a.next_functions] *)
Definition hasattr_next_functions (a : addr) : M bool :=
  o ← deref a; ret (bool_decide (is_Some (next_functions o))).
Definition getattr_next_functions (a : addr) : M (list link) :=
  o ← deref a;
  match next_functions o with Some fs => ret fs | None => raise AttributeError end.

(** [f"{a}"] *)
Definition format (a : addr) : M string :=
  o ← deref a; ret (py_str o).

(** [s * n] on strings: the empty string when [n <= 0]. *)
Definition str_mul (s : string) (n : Z) : string :=
  Nat.iter (Z.to_nat n) (String.append s) "".

(** [print(s)]: one more line on the console. *)
Definition print (s : string) : M unit := λ w,
  (Returned tt, World (heap w) (next_addr w) (stdout w ++ [s])).

(** ** The graph inspector *)

(** [print_grad_graph(tensor, indent=0)].  The condition
    [hasattr(tensor, 'grad_fn') and tensor.grad_fn is not None] is the
    [Some g] branch of [gf]; each call of the function uses one unit of
    fuel. *)
Fixpoint print_grad_graph (fuel : nat) (tensor : addr) (indent : Z) : M unit :=
  match fuel with
  | O => out_of_fuel
  | S fuel' =>
    has_gf ← hasattr_grad_fn tensor;
    gf ← (if has_gf : bool then getattr_grad_fn tensor else ret None);
    match gf with
    | Some g =>
      s ← format g;
      print (str_mul " " indent +:+ s) ;;
      fs ← getattr_next_functions g;
      for_each fs (λ '(f, _),
        match f with
        | Some f' => print_grad_graph fuel' f' (indent + 4)
        | None => ret tt
        end)
    | None =>
      has_nf ← hasattr_next_functions tensor;
      if has_nf : bool then
        s ← format tensor;
        print (str_mul " " indent +:+ s) ;;
        fs ← getattr_next_functions tensor;
        for_each fs (λ '(f, _),
          match f with
          | Some f' => print_grad_graph fuel' f' (indent + 4)
          | None => ret tt
          end)
      else ret tt
    end
  end.

(** ** The tensor library's provenance recording *)

Module torch.

(** Modelled from the spec: the tensor library is not part of the
    repository.  A fresh object gets the next identity of the store. *)
Definition alloc (mk : addr → pyobj) : M addr := λ w,
  let a := next_addr w in
  (Returned a, World (<[a := mk a]> (heap w)) (Pos.succ a) (stdout w)).

(** Modelled from the spec: the identity the next new object will get. *)
Definition next_identity : M addr := λ w, (Returned (next_addr w), w).

(** Modelled from the spec: the default rendering of a backward node, its
    class name and its identity, as the notebook's outputs show it. *)
Definition node_str (name : string) (a : addr) : string :=
  "<" +:+ name +:+ " object at " +:+ HexString.of_pos a +:+ ">".

(** Modelled from the spec: a backward node "holds references to the
    backward nodes (or leaf markers) of its operands, in positional order";
    it has [next_functions] and no [grad_fn]. *)
Definition new_node (name : string) (fs : list link) (var : option addr) : M addr :=
  alloc (λ a, PyObj (node_str name a) None (Some fs) false var None).

(** Modelled from the spec: a tensor is "a value with optional provenance
    metadata"; it has a [grad_fn] attribute, possibly [None], and no
    [next_functions].  Its numeric contents are outside the model. *)
Definition new_tensor (gf : option addr) (rg : bool) (acc : option addr) : M addr :=
  alloc (λ _, PyObj "tensor(...)" (Some gf) None rg None acc).

(** Modelled from the spec: an original input.  When it is tracked for
    differentiation it owns a leaf marker ([AccumulateGrad]) whose
    [variable] is the tensor itself; the marker is the object allocated
    right after the tensor. *)
Definition leaf_tensor (rg : bool) : M addr :=
  if rg then
    a ← next_identity;
    t ← new_tensor None true (Some (Pos.succ a));
    new_node "AccumulateGrad" [] (Some t) ;;
    mret t
  else new_tensor None false None.

(** Modelled from the spec: [torch.randn(..., requires_grad=rg)]. *)
Definition randn (rg : bool) : M addr := leaf_tensor rg.

(** Modelled from the spec: [nn.Parameter(data, requires_grad=rg)], a new
    leaf over the contents of [data]. *)
Definition nn_Parameter (data : addr) (rg : bool) : M addr :=
  deref data ;; leaf_tensor rg.

(** Modelled from the spec: the operand link recorded for an input: its
    backward node, else its leaf marker when it is tracked, else "a
    null/absent marker when an input is not tracked". *)
Definition edge_of (o : pyobj) : link :=
  match grad_fn o with
  | Some (Some g) => (Some g, 0)
  | _ => if requires_grad o then (grad_accumulator o, 0) else (None, 0)
  end.

(** Modelled from the spec: [edge_of] on the tensor at [t]. *)
Definition gradient_edge (t : addr) : M link :=
  o ← deref t; mret (edge_of o).

(** Modelled from the spec: [t.requires_grad]. *)
Definition get_requires_grad (t : addr) : M bool :=
  o ← deref t; mret (requires_grad o).

(** Modelled from the spec: a differentiable operation [name] applied to
    [inputs].  When some input is tracked, the result carries a new
    backward node with one link per input, in order; otherwise it carries
    no provenance. *)
Definition apply_op (name : string) (inputs : list addr) : M addr :=
  tracked ← mapM get_requires_grad inputs;
  if existsb id tracked then
    edges ← mapM gradient_edge inputs;
    n ← new_node name edges None;
    new_tensor (Some n) true None
  else new_tensor None false None.

(** Modelled from the spec: the operations the notebook applies, each under
    the class name of its backward node. *)
Definition mul (a b : addr) : M addr := apply_op "MulBackward0" [a; b].
Definition add (a b : addr) : M addr := apply_op "AddBackward0" [a; b].
Definition sub (a b : addr) : M addr := apply_op "SubBackward0" [a; b].
Definition abs (a : addr) : M addr := apply_op "AbsBackward0" [a].
Definition mean (a : addr) : M addr := apply_op "MeanBackward0" [a].

(** Modelled from the spec: [nn.L1Loss()], "the mean of |y_pred-y_true|". *)
Definition L1Loss (y_pred y_true : addr) : M addr :=
  d ← sub y_pred y_true; a ← abs d; mean a.

End torch.

(** ** The affine model of the notebook *)

Record LinearRegressionModel : Type := {
  weights : addr;
  bias : addr
}.

(** [LinearRegressionModel.__init__] *)
Definition LinearRegressionModel_init : M LinearRegressionModel :=
  d ← torch.randn false;
  w ← torch.nn_Parameter d true;
  d' ← torch.randn false;
  b ← torch.nn_Parameter d' true;
  mret {| weights := w; bias := b |}.

(** [LinearRegressionModel.forward]: [self.weights * x + self.bias] *)
Definition forward (self : LinearRegressionModel) (x : addr) : M addr :=
  wx ← torch.mul (weights self) x;
  torch.add wx (bias self).

(** The cell [model = LinearRegressionModel(); x = torch.randn(1, 1,
    requires_grad=...); y_pred = model(x)]. *)
Definition cell_y_pred (x_requires_grad : bool) : M (LinearRegressionModel * addr * addr) :=
  model ← LinearRegressionModel_init;
  x ← torch.randn x_requires_grad;
  y_pred ← forward model x;
  mret (model, x, y_pred).

(** The last cell, up to the call of the inspector. *)
Definition cell_loss : M (LinearRegressionModel * addr) :=
  model ← LinearRegressionModel_init;
  x ← torch.randn false;
  y_true ← torch.randn false;
  y_pred ← forward model x;
  loss ← torch.L1Loss y_pred y_true;
  mret (model, loss).

(** ** The multiplication notebook *)

Module torch_int.

(** Modelled from the spec: a 2-D [int32] tensor is the list of its rows, a
    3-D one the list of its matrices. *)
Abbreviation matrix := (list (list Z)) (only parsing).
Abbreviation batch := (list (list (list Z))) (only parsing).

(** Modelled from the spec: [int32] arithmetic wraps around. *)
Definition wrap32 (z : Z) : Z := (z + 2 ^ 31) mod 2 ^ 32 - 2 ^ 31.

(** Modelled from the spec: [torch.ones([r, c], dtype=torch.int32)]. *)
Definition ones (r c : nat) : matrix := repeat (repeat 1 c) r.

(** Modelled from the spec: the shape [(rows, columns)] of a 2-D tensor;
    its rows have equal lengths. *)
Definition shape (a : matrix) : option (nat * nat) :=
  match a with
  | [] => Some (0%nat, 0%nat)
  | row :: rows =>
    if forallb (λ r, Nat.eqb (length r) (length row)) rows
    then Some (length a, length row) else None
  end.

(** Modelled from the spec: [torch.mul], elementwise, on operands of one
    shape (other shapes, which the library broadcasts, are outside the
    model and give [None]). *)
Definition mul (a b : matrix) : option matrix :=
  match shape a, shape b with
  | Some sa, Some sb =>
    if decide (sa = sb)
    then Some (zip_with (zip_with (λ x y, wrap32 (x * y))) a b)
    else None
  | _, _ => None
  end.

(** Modelled from the spec: the sum of the products of corresponding
    entries. *)
Definition dot (u v : list Z) : Z :=
  fold_right Z.add 0 (zip_with Z.mul u v).

(** Modelled from the spec: the [j]-th column of a 2-D tensor. *)
Definition column (j : nat) (b : matrix) : list Z :=
  map (λ row, nth j row 0) b.

(** Modelled from the spec: [torch.mm], the product of two 2-D tensors
    whose inner dimensions agree; [None] stands for the library's error. *)
Definition mm (a b : matrix) : option matrix :=
  match shape a, shape b with
  | Some (_, k), Some (k', m) =>
    if decide (k = k')
    then Some (map (λ row,
                 map (λ j, wrap32 (dot row (column j b))) (seq 0 m)) a)
    else None
  | _, _ => None
  end.

(** Modelled from the spec: [torch.matmul] on two 2-D tensors is the matrix
    product. *)
Definition matmul (a b : matrix) : option matrix := mm a b.

(** Modelled from the spec: [t.unsqueeze(0)] on a 2-D tensor. *)
Definition unsqueeze0 (a : matrix) : batch := [a].

(** Modelled from the spec: [torch.bmm], "multiplying corresponding pairs
    of matrices stacked along a leading batch dimension, independently per
    batch index"; the batch sizes must agree. *)
Fixpoint bmm (a b : batch) : option batch :=
  match a, b with
  | [], [] => Some []
  | x :: a', y :: b' =>
    match mm x y, bmm a' b' with
    | Some z, Some zs => Some (z :: zs)
    | _, _ => None
    end
  | _, _ => None
  end.

End torch_int.

(** [mat1] and [mat2] of the notebook. *)
Definition mat1 : list (list Z) := [[1; 2]; [3; 4]].
Definition mat2 : list (list Z) := torch_int.ones 2 2.

(** ** Concrete runs *)

Definition init_world : world := World ∅ 1 [].

(** The objects the cells create before [forward] is called. *)
Definition setup (x_requires_grad : bool)
    : M (LinearRegressionModel * addr * addr) :=
  model ← LinearRegressionModel_init;
  x ← torch.randn x_requires_grad;
  y_true ← torch.randn false;
  mret (model, x, y_true).

Definition notebook_model : LinearRegressionModel :=
  {| weights := 2; bias := 5 |}.
Definition untracked_world : world :=
  Eval vm_compute in (setup false init_world).2.
Definition tracked_world : world :=
  Eval vm_compute in (setup true init_world).2.
Definition loss_world : world :=
  Eval vm_compute in (cell_loss init_world).2.

(** A graph with a shared node: the product of a tracked leaf with itself.
    Both links of the multiply-node lead to the one leaf marker. *)
Definition cell_square : M addr :=
  d ← torch.randn false;
  p ← torch.nn_Parameter d true;
  torch.mul p p.

Definition square_world : world :=
  Eval vm_compute in (cell_square init_world).2.

(** A store the tensor library never builds: a node that links to itself. *)
Definition self_loop : world :=
  World {[ 1%positive := PyObj "<loop>" None (Some [(Some 1%positive, 0)])
                           false None None ]} 2 [].

(** A store with one object that has neither attribute. *)
Definition plain_world : world :=
  World {[ 1%positive := plain_object "5" ]} 2 [].

(** * Part II: the vocabulary of the statements *)

(** ** What a call prints: the console-free reading of the inspector *)

(** The links of a [next_functions] tuple visited in order by [rec], null
    links skipped; the loop stops at the first call that does not return. *)
Fixpoint visit_links (rec : addr → Z → outcome unit * list string)
    (fs : list link) (indent : Z) : outcome unit * list string :=
  match fs with
  | [] => (Returned tt, [])
  | (None, _) :: fs' => visit_links rec fs' indent
  | (Some f, _) :: fs' =>
    match rec f indent with
    | (Returned _, ls) =>
      let '(r, ls') := visit_links rec fs' indent in (r, ls ++ ls')
    | (r, ls) => (r, ls)
    end
  end.

(** The outcome and the lines printed by [print_grad_graph fuel tensor
    indent] over the store [h]. *)
Fixpoint visit (fuel : nat) (h : gmap addr pyobj) (tensor : addr) (indent : Z)
    : outcome unit * list string :=
  match fuel with
  | O => (OutOfFuel, [])
  | S fuel' =>
    match h !! tensor with
    | None => (Stuck, [])
    | Some o =>
      match grad_fn o with
      | Some (Some g) =>
        match h !! g with
        | None => (Stuck, [])
        | Some og =>
          let line := str_mul " " indent +:+ py_str og in
          match next_functions og with
          | None => (Raised AttributeError, [line])
          | Some fs =>
            let '(r, ls) := visit_links (visit fuel' h) fs (indent + 4) in
            (r, line :: ls)
          end
        end
      | _ =>
        match next_functions o with
        | None => (Returned tt, [])
        | Some fs =>
          let line := str_mul " " indent +:+ py_str o in
          let '(r, ls) := visit_links (visit fuel' h) fs (indent + 4) in
          (r, line :: ls)
        end
      end
    end
  end.

(** The world after a call that printed [ls]. *)
Definition printed (w : world) (ls : list string) : world :=
  World (heap w) (next_addr w) (stdout w ++ ls).

(** ** References, cycles and calls *)

(** [a] refers to [b]: [b] is the populated [grad_fn] of [a], or a non-null
    entry of its [next_functions]. *)
Definition refers (h : gmap addr pyobj) (a b : addr) : Prop :=
  ∃ o, h !! a = Some o ∧
    (grad_fn o = Some (Some b) ∨
     ∃ fs k, next_functions o = Some fs ∧ (Some b, k) ∈ fs).

(** No object reaches itself along one or more references. *)
Definition acyclic (h : gmap addr pyobj) : Prop :=
  ∀ a, ¬ tc (refers h) a a.

(** The node a call on [v] prints: the populated [grad_fn], else [v]. *)
Definition entry (o : pyobj) (v : addr) : addr :=
  match grad_fn o with Some (Some g) => g | _ => v end.

(** A call on [v] makes a recursive call on [f]. *)
Definition calls (h : gmap addr pyobj) (v f : addr) : Prop :=
  ∃ o on fs k,
    h !! v = Some o ∧ h !! entry o v = Some on ∧
    next_functions on = Some fs ∧ (Some f, k) ∈ fs.

(** Every non-null link of the store. *)
Definition link_targets (h : gmap addr pyobj) : list addr :=
  '(_, o) ← map_to_list h;
  match next_functions o with Some fs => omap fst fs | None => [] end.

(** The objects [o] refers to. *)
Definition refs_of (o : pyobj) : list addr :=
  match grad_fn o with Some (Some g) => [g] | _ => [] end ++
  match next_functions o with Some fs => omap fst fs | None => [] end.

(** A sufficient reason for acyclicity that computes: [rank] decreases
    along every reference. *)
Definition ranked (rank : addr → nat) (h : gmap addr pyobj) : bool :=
  forallb (λ '(a, o), forallb (λ b, Nat.ltb (rank b) (rank a)) (refs_of o))
    (map_to_list h).

(** ** The tree a graph unfolds to *)

(** The tree a provenance graph unfolds to: a node's textual identity and
    the subtrees of its non-null operand links, in order. *)
#[warnings="-register-all"]
Inductive tree : Type :=
  | Tree (label : string) (children : list tree).

(** [unfolds h v t]: the value [v] is traversed from the node it designates
    (its populated [grad_fn], else itself), and the part of the store
    reachable from there along non-null links unfolds to the finite tree
    [t]. *)
#[warnings="-register-all"]
Inductive unfolds (h : gmap addr pyobj) : addr → tree → Prop :=
  | unfolds_node v o on fs ts :
      h !! v = Some o →
      h !! entry o v = Some on →
      next_functions on = Some fs →
      Forall2 (unfolds h) (omap fst fs) ts →
      unfolds h v (Tree (py_str on) ts).

(** Depth-first, root-first text of a tree: a node at depth [depth] is one
    line indented by four spaces per level beyond the initial indent,
    followed by the texts of its children, in order, one level deeper. *)
Fixpoint render (indent : Z) (depth : nat) (t : tree) : list string :=
  match t with
  | Tree label children =>
    (str_mul " " (indent + 4 * Z.of_nat depth) +:+ label)
      :: flat_map (render indent (S depth)) children
  end.

(** The tree of [unfolds], computed with a bound on its depth. *)
Fixpoint unfold_tree (fuel : nat) (h : gmap addr pyobj) (v : addr) : option tree :=
  match fuel with
  | O => None
  | S fuel' =>
    o ← h !! v;
    on ← h !! entry o v;
    fs ← next_functions on;
    ts ← mapM (unfold_tree fuel' h) (omap fst fs);
    Some (Tree (py_str on) ts)
  end.

(** ** Provenance graphs and their paths *)

(** A backward node: it has [next_functions] and no populated [grad_fn]. *)
Definition is_node (o : pyobj) : bool :=
  match grad_fn o, next_functions o with
  | Some (Some _), _ => false
  | _, Some _ => true
  | _, None => false
  end.

(** In a provenance graph every non-null link leads to a backward node. *)
Definition provenance_graph (h : gmap addr pyobj) : Prop :=
  ∀ a o fs f k,
    h !! a = Some o → next_functions o = Some fs → (Some f, k) ∈ fs →
    ∃ o', h !! f = Some o' ∧ is_node o' = true.

(** [provenance_graph], as a check that computes. *)
Definition provenance_graphb (h : gmap addr pyobj) : bool :=
  forallb (λ '(_, o),
    match next_functions o with
    | Some fs =>
      forallb (λ f, match h !! f with Some o' => is_node o' | None => false end)
        (omap fst fs)
    | None => true
    end) (map_to_list h).

(** The node behind the [i]-th link of [n], when that link is not null. *)
Definition link_at (h : gmap addr pyobj) (n : addr) (i : nat) : option addr :=
  o ← h !! n; fs ← next_functions o; l ← fs !! i; l.1.

(** A path is the list of link positions taken from the root; [follow]
    gives the node it leads to, when every link on the way is non-null. *)
Fixpoint follow (h : gmap addr pyobj) (n : addr) (p : list nat) : option addr :=
  match p with
  | [] => Some n
  | i :: p' => f ← link_at h n i; follow h f p'
  end.

(** The line printed for the node at the end of path [p] from [n]. *)
Definition path_line (h : gmap addr pyobj) (n : addr) (indent : Z)
    (p : list nat) : string :=
  str_mul " " (indent + 4 * Z.of_nat (length p))
  +:+ from_option py_str "" (follow h n p ≫= (h !!.)).

(** The paths through the links [fs], the first of which has position [j],
    given the paths [rec f] from each target. *)
Fixpoint link_paths (rec : addr → list (list nat)) (j : nat) (fs : list link)
    : list (list nat) :=
  match fs with
  | [] => []
  | (f, _) :: fs' =>
    match f with Some f' => map (cons j) (rec f') | None => [] end
    ++ link_paths rec (S j) fs'
  end.

(** The paths from [n] of length below [fuel], in the order of a
    root-first, depth-first walk. *)
Fixpoint paths (fuel : nat) (h : gmap addr pyobj) (n : addr) : list (list nat) :=
  match fuel with
  | O => []
  | S fuel' =>
    [] :: match h !! n ≫= next_functions with
          | Some fs => link_paths (paths fuel' h) 0 fs
          | None => []
          end
  end.

(** What a returning call on a node of a provenance graph does, in terms
    of paths. *)
Definition visit_spec (h : gmap addr pyobj) (fuel : nat) (n : addr) (i : Z)
    : Prop :=
  visit fuel h n i = (Returned tt, map (path_line h n i) (paths fuel h n)) ∧
  NoDup (paths fuel h n) ∧
  ∀ p, p ∈ paths fuel h n ↔ is_Some (follow h n p).

(** ** The shape of recorded graphs *)

(** The object [a] is a backward node of class [name] with the operand
    links [fs], in order. *)
Definition backward_node (h : gmap addr pyobj) (a : addr) (name : string)
    (fs : list link) : Prop :=
  ∃ o, h !! a = Some o ∧ py_str o = torch.node_str name a ∧
       grad_fn o = None ∧ next_functions o = Some fs.

(** The object [a] is the leaf marker (gradient accumulator) of the
    tensor [t]. *)
Definition leaf_marker (h : gmap addr pyobj) (a t : addr) : Prop :=
  ∃ o, h !! a = Some o ∧ py_str o = torch.node_str "AccumulateGrad" a ∧
       grad_fn o = None ∧ next_functions o = Some [] ∧ variable o = Some t.

(** A leaf tensor and the link an operation records for it: its leaf
    marker when it is tracked, a null link when it is not. *)
Definition leaf (h : gmap addr pyobj) (t : addr) (edge : option addr) : Prop :=
  ∃ o, h !! t = Some o ∧ grad_fn o = Some None ∧
       match edge with
       | Some acc =>
         requires_grad o = true ∧ grad_accumulator o = Some acc ∧
         leaf_marker h acc t
       | None => requires_grad o = false
       end.

(** The allocator hands out identities the store does not hold. *)
Definition fresh_from (w : world) : Prop :=
  ∀ a, (next_addr w ≤ a)%positive → heap w !! a = None.

(** [fresh_from], as a check that computes. *)
Definition fresh_fromb (w : world) : bool :=
  forallb (λ '(a, _), Pos.ltb a (next_addr w)) (map_to_list (heap w)).

(** [w'] holds every object of [w], unchanged. *)
Definition extends (w w' : world) : Prop :=
  ∀ a o, heap w !! a = Some o → heap w' !! a = Some o.

(** A tensor produced by a recorded operation whose backward node is [n]. *)
Definition result_of (h : gmap addr pyobj) (y n : addr) : Prop :=
  ∃ o, h !! y = Some o ∧ grad_fn o = Some (Some n) ∧ requires_grad o = true.

(** ** Further stores *)

(** A tensor-like object whose [grad_fn] is an object without
    [next_functions]. *)
Definition linkless_world : world :=
  World {[ 1%positive := plain_object "5";
           2%positive := PyObj "t" (Some (Some 1%positive)) None false
                           None None ]} 3 [].

(** A tower of height [k] over [a]: a node without links when [k = 0];
    otherwise a node whose two links both lead to one tower of height
    [k - 1], as the product of a tensor with itself records it. *)
Fixpoint tower (h : gmap addr pyobj) (k : nat) (a : addr) : Prop :=
  match k with
  | O => ∃ o, h !! a = Some o ∧ is_node o = true ∧ next_functions o = Some []
  | S k' =>
    ∃ o b i j,
      h !! a = Some o ∧ is_node o = true ∧
      next_functions o = Some [(Some b, i); (Some b, j)] ∧ tower h k' b
  end.

(** ** Ranges and sums for the multiplication notebook *)

(** The values an [int32] entry holds. *)
Definition in_int32 (z : Z) : Prop := - 2 ^ 31 ≤ z < 2 ^ 31.

(** The sum of a row, before wrap-around. *)
Definition row_sum (row : list Z) : Z := fold_right Z.add 0 row.

(** * Part III: lemmas and theorems *)

(** ** The inspector and its console-free reading *)

(** Simplify, using the equations at hand on the scrutinees that block. *)
Ltac msimpl :=
  repeat (progress simpl ||
          match goal with H : ?x = _ |- context [?x] => rewrite H end).

Lemma printed_nil w : printed w [] = w.
Proof. destruct w; unfold printed; simpl. by rewrite app_nil_r. Qed.

Lemma printed_app w ls ls' : printed (printed w ls) ls' = printed w (ls ++ ls').
Proof. unfold printed; simpl. by rewrite app_assoc. Qed.

Lemma for_each_visit_links (rec : addr → Z → M unit) rec' h fs indent :
  (∀ f i w, heap w = h → rec f i w = ((rec' f i).1, printed w (rec' f i).2)) →
  ∀ w, heap w = h →
    for_each fs (λ '(f, _),
      match f with Some f' => rec f' indent | None => mret tt end) w
    = ((visit_links rec' fs indent).1, printed w (visit_links rec' fs indent).2).
Proof.
  intros Hrec. induction fs as [|[[f|] k] fs IH]; intros w Hw; simpl.
  - by rewrite printed_nil.
  - unfold mbind, M_bind, bind. rewrite Hrec by done.
    destruct (rec' f indent) as [[[]| | |] ls]; simpl; try done.
    rewrite IH by done. destruct (visit_links rec' fs indent) as [r ls']; simpl.
    by rewrite printed_app.
  - unfold mbind, M_bind, bind. simpl. by apply IH.
Qed.

(** [print_grad_graph] changes the world by appending the lines of [visit]
    to the console, and by nothing else. *)
Lemma print_grad_graph_visit fuel tensor indent w :
  print_grad_graph fuel tensor indent w
  = ((visit fuel (heap w) tensor indent).1,
     printed w (visit fuel (heap w) tensor indent).2).
Proof.
  revert tensor indent w. induction fuel as [|fuel IH]; intros tensor indent w.
  { simpl. by rewrite printed_nil. }
  assert (Hloop : ∀ fs line,
    for_each fs (λ '(f, _),
      match f with
      | Some f' => print_grad_graph fuel f' (indent + 4)
      | None => mret tt
      end) (printed w [line])
    = ((visit_links (visit fuel (heap w)) fs (indent + 4)).1,
       printed w (line :: (visit_links (visit fuel (heap w)) fs (indent + 4)).2))).
  { intros fs line.
    rewrite (for_each_visit_links _ (visit fuel (heap w)) (heap w) fs (indent + 4)).
    - by rewrite printed_app.
    - intros f i w' <-. apply IH.
    - done. }
  destruct w as [h n out]. unfold printed in Hloop. simpl in *.
  cbv [mbind M_bind bind hasattr_grad_fn getattr_grad_fn
    hasattr_next_functions getattr_next_functions format deref print
    mret M_ret ret raise] in *. simpl.
  destruct (h !! tensor) as [o|] eqn:Ho; simpl;
    [|by rewrite printed_nil].
  destruct (grad_fn o) as [[g|]|] eqn:Hg; msimpl.
  - destruct (h !! g) as [og|] eqn:Hog; msimpl;
      [|by unfold printed; simpl; rewrite app_nil_r].
    destruct (next_functions og) as [fs|] eqn:Hfs; msimpl; [|done].
    rewrite Hloop. by destruct (visit_links _ fs (indent + 4)).
  - destruct (next_functions o) as [fs|] eqn:Hfs; msimpl;
      [|by unfold printed; simpl; rewrite app_nil_r].
    rewrite Hloop. by destruct (visit_links _ fs (indent + 4)).
  - destruct (next_functions o) as [fs|] eqn:Hfs; msimpl;
      [|by unfold printed; simpl; rewrite app_nil_r].
    rewrite Hloop. by destruct (visit_links _ fs (indent + 4)).
Qed.

(** ** Strings of spaces *)

Lemma string_append_assoc (s1 s2 s3 : string) :
  (s1 +:+ s2) +:+ s3 = s1 +:+ (s2 +:+ s3).
Proof.
  induction s1 as [|c s1 IH]; [done|].
  change (String c ((s1 +:+ s2) +:+ s3) = String c (s1 +:+ (s2 +:+ s3))).
  by rewrite IH.
Qed.

Lemma str_mul_add (s : string) (a b : Z) :
  0 ≤ a → 0 ≤ b → str_mul s (a + b) = str_mul s a +:+ str_mul s b.
Proof.
  intros Ha Hb. unfold str_mul. rewrite Z2Nat.inj_add by done.
  induction (Z.to_nat a) as [|n IH]; simpl; [done|].
  by rewrite IH, string_append_assoc.
Qed.

Lemma str_mul_nonpos (s : string) (n : Z) : n ≤ 0 → str_mul s n = "".
Proof.
  intros Hn. unfold str_mul.
  replace (Z.to_nat n) with 0%nat by lia. done.
Qed.

(** ** Frame: the inspector only writes to the console *)

(** C8.  A call of the inspector, whatever its arguments and however it
    ends, leaves the object store (and the allocator) exactly as it found
    them, and the console it leaves is the console it found followed by the
    lines it printed.  The call returns no value: its result is in [unit]. *)
Theorem print_grad_graph_observational (fuel : nat) (tensor : addr)
    (indent : Z) (w : world) :
  let '(r, w') := print_grad_graph fuel tensor indent w in
  heap w' = heap w ∧ next_addr w' = next_addr w ∧
  ∃ ls, stdout w' = stdout w ++ ls.
Proof.
  rewrite print_grad_graph_visit.
  destruct (visit fuel (heap w) tensor indent) as [r ls]; simpl.
  repeat split. by exists ls.
Qed.

(** ** Values without provenance *)

(** C4.  On a value whose [grad_fn] is missing or [None] and that has no
    [next_functions], a call returns normally, prints nothing and leaves
    the world as it was. *)
Theorem print_grad_graph_no_provenance (fuel : nat) (tensor : addr)
    (indent : Z) (w : world) (o : pyobj) :
  heap w !! tensor = Some o →
  grad_fn o = None ∨ grad_fn o = Some None →
  next_functions o = None →
  print_grad_graph (S fuel) tensor indent w = (Returned tt, w).
Proof.
  intros Ho Hg Hn. rewrite print_grad_graph_visit. simpl. rewrite Ho.
  destruct Hg as [-> | ->]; rewrite Hn; simpl; by rewrite printed_nil.
Qed.

(** ** The indent argument shifts the output *)

Lemma visit_links_map (g : string → string) rec1 rec2 fs i1 i2 :
  (∀ f, rec2 f i2 = ((rec1 f i1).1, map g (rec1 f i1).2)) →
  visit_links rec2 fs i2
  = ((visit_links rec1 fs i1).1, map g (visit_links rec1 fs i1).2).
Proof.
  intros Hrec. induction fs as [|[[f|] k] fs IH]; simpl; [done| |done].
  rewrite Hrec. destruct (rec1 f i1) as [[[]| | |] ls]; simpl; try done.
  rewrite IH. destruct (visit_links rec1 fs i1) as [r ls']; simpl.
  by rewrite map_app.
Qed.

Lemma visit_shift (n : Z) fuel h tensor indent :
  0 ≤ n → 0 ≤ indent →
  visit fuel h tensor (indent + n)
  = ((visit fuel h tensor indent).1,
     map (String.append (str_mul " " n)) (visit fuel h tensor indent).2).
Proof.
  intros Hn. revert tensor indent.
  induction fuel as [|fuel IH]; intros tensor indent Hi; simpl; [done|].
  assert (Hline : ∀ s, str_mul " " (indent + n) +:+ s
                       = str_mul " " n +:+ (str_mul " " indent +:+ s)).
  { intros s. rewrite (Z.add_comm indent n), str_mul_add by done.
    apply string_append_assoc. }
  assert (Hloop : ∀ fs, visit_links (visit fuel h) fs (indent + n + 4)
    = ((visit_links (visit fuel h) fs (indent + 4)).1,
       map (String.append (str_mul " " n))
         (visit_links (visit fuel h) fs (indent + 4)).2)).
  { intros fs. apply visit_links_map. intros f.
    replace (indent + n + 4) with (indent + 4 + n) by lia. apply IH. lia. }
  destruct (h !! tensor) as [o|]; [|done].
  destruct (grad_fn o) as [[g|]|].
  - destruct (h !! g) as [og|]; [|done].
    destruct (next_functions og) as [fs|]; simpl; [|by rewrite Hline].
    rewrite Hloop. destruct (visit_links _ fs (indent + 4)); simpl.
    by rewrite Hline.
  - destruct (next_functions o) as [fs|]; simpl; [|done].
    rewrite Hloop. destruct (visit_links _ fs (indent + 4)); simpl.
    by rewrite Hline.
  - destruct (next_functions o) as [fs|]; simpl; [|done].
    rewrite Hloop. destruct (visit_links _ fs (indent + 4)); simpl.
    by rewrite Hline.
Qed.

(** C10.  With initial indent [n], a natural number, the call ends as the
    call with indent [0] does and prints the same lines, each one prefixed
    by [n] more spaces. *)
Theorem print_grad_graph_indent_shift (n : nat) (fuel : nat) (tensor : addr)
    (w : world) :
  ∃ r ls,
    print_grad_graph fuel tensor 0 w = (r, printed w ls) ∧
    print_grad_graph fuel tensor (Z.of_nat n) w
    = (r, printed w (map (String.append (str_mul " " (Z.of_nat n))) ls)).
Proof.
  exists (visit fuel (heap w) tensor 0).1, (visit fuel (heap w) tensor 0).2.
  split; [apply print_grad_graph_visit|].
  rewrite print_grad_graph_visit.
  change (Z.of_nat n) with (0 + Z.of_nat n) at 1 2.
  rewrite visit_shift by lia. done.
Qed.

(** ** Termination on acyclic graphs *)

Lemma calls_refers h v f : calls h v f → tc (refers h) v f.
Proof.
  intros (o & on & fs & k & Ho & Hon & Hfs & Hin). unfold entry in Hon.
  destruct (grad_fn o) as [[g|]|] eqn:Hg.
  - apply tc_l with g; [exists o; eauto|].
    apply tc_once. exists on. eauto 10.
  - apply tc_once. exists o. simplify_eq. eauto 10.
  - apply tc_once. exists o. simplify_eq. eauto 10.
Qed.

Lemma tc_calls_refers h v f : tc (calls h) v f → tc (refers h) v f.
Proof.
  induction 1 as [x y Hxy|x y z Hxy _ IH]; [by apply calls_refers|].
  eapply tc_trans; [by apply calls_refers|done].
Qed.

Lemma calls_link_targets h v f : calls h v f → f ∈ link_targets h.
Proof.
  intros (o & on & fs & k & Ho & Hon & Hfs & Hin). unfold link_targets.
  apply list_elem_of_bind. exists (entry o v, on). split.
  - rewrite Hfs. apply list_elem_of_omap. by exists (Some f, k).
  - by apply elem_of_map_to_list.
Qed.

Lemma acyclic_calls_sn h v : acyclic h → sn (calls h) v.
Proof.
  intros Hacyc. apply tc_finite_sn.
  - intros a Ha. by apply (Hacyc a), tc_calls_refers.
  - exists (link_targets h). intros f Hf.
    induction Hf as [x y Hxy|x y z _ _ IH]; [|done].
    by eapply calls_link_targets.
Qed.

(** A loop over links does not run out of fuel when none of its calls does. *)
Lemma visit_links_fuel rec fs i :
  (∀ f k, (Some f, k) ∈ fs → (rec f i).1 ≠ OutOfFuel) →
  (visit_links rec fs i).1 ≠ OutOfFuel.
Proof.
  induction fs as [|[[f|] k] fs IH]; intros Hrec; simpl; [done| |].
  - pose proof (Hrec f k ltac:(left)) as Hf.
    destruct (rec f i) as [[[]| | |] ls]; simpl in *; try done.
    assert (Htl : (visit_links rec fs i).1 ≠ OutOfFuel).
    { apply IH. intros f' k' Hin. apply (Hrec f' k'). by right. }
    by destruct (visit_links rec fs i) as [r ls'].
  - apply IH. intros f' k' Hin. apply (Hrec f' k'). by right.
Qed.

(** Enough fuel for every call of a loop, given enough for each. *)
Lemma links_fuel_bound (fs : list link) (P : addr → nat → Prop) :
  (∀ f k, (Some f, k) ∈ fs → ∃ n, ∀ fuel, (n ≤ fuel)%nat → P f fuel) →
  ∃ n, ∀ f k, (Some f, k) ∈ fs → ∀ fuel, (n ≤ fuel)%nat → P f fuel.
Proof.
  induction fs as [|[f k] fs IH]; intros Hall.
  - exists 0%nat. intros f k Hin. by apply elem_of_nil in Hin.
  - destruct IH as [n Hn]; [intros f' k' Hin; apply (Hall f' k'); by right|].
    destruct f as [f|].
    + destruct (Hall f k ltac:(left)) as [m Hm].
      exists (n `max` m)%nat. intros f' k' Hin fuel Hfuel.
      apply elem_of_cons in Hin as [Heq|Hin].
      * simplify_eq. apply Hm. lia.
      * eapply Hn; [done|lia].
    + exists n. intros f' k' Hin fuel Hfuel.
      apply elem_of_cons in Hin as [Heq|Hin]; [done|]. by eapply Hn.
Qed.

Lemma visit_terminates h v :
  acyclic h →
  ∃ n, ∀ fuel, (n ≤ fuel)%nat → ∀ i, (visit fuel h v i).1 ≠ OutOfFuel.
Proof.
  intros Hacyc. induction (acyclic_calls_sn h v Hacyc) as [v _ IH].
  assert (Hloop : ∀ o on fs, h !! v = Some o → h !! entry o v = Some on →
    next_functions on = Some fs →
    ∃ n, ∀ fuel, (n ≤ fuel)%nat → ∀ i,
      (visit_links (visit fuel h) fs i).1 ≠ OutOfFuel).
  { intros o on fs Ho Hon Hfs.
    destruct (links_fuel_bound fs
      (λ f fuel, ∀ i, (visit fuel h f i).1 ≠ OutOfFuel)) as [n Hn].
    - intros f k Hin. apply IH. exists o, on, fs, k. done.
    - exists n. intros fuel Hfuel i. apply visit_links_fuel.
      intros f k Hin. by eapply Hn. }
  destruct (h !! v) as [o|] eqn:Ho;
    [|exists 1%nat; intros [|fuel] ? i; [lia|]; simpl; by rewrite Ho].
  specialize (Hloop o). unfold entry in Hloop.
  destruct (grad_fn o) as [[g|]|] eqn:Hg.
  - destruct (h !! g) as [og|] eqn:Hog;
      [|exists 1%nat; intros [|fuel] ? i; [lia|]; simpl;
        by rewrite Ho, Hg, Hog].
    destruct (next_functions og) as [fs|] eqn:Hfs;
      [|exists 1%nat; intros [|fuel] ? i; [lia|]; simpl;
        by rewrite Ho, Hg, Hog, Hfs].
    destruct (Hloop og fs) as [n Hn]; [done..|].
    exists (S n). intros [|fuel] ? i; [lia|]. simpl.
    rewrite Ho, Hg, Hog, Hfs.
    specialize (Hn fuel ltac:(lia) (i + 4)).
    by destruct (visit_links _ fs (i + 4)).
  - destruct (next_functions o) as [fs|] eqn:Hfs;
      [|exists 1%nat; intros [|fuel] ? i; [lia|]; simpl;
        by rewrite Ho, Hg, Hfs].
    destruct (Hloop o fs) as [n Hn]; [done..|].
    exists (S n). intros [|fuel] ? i; [lia|]. simpl.
    rewrite Ho, Hg, Hfs.
    specialize (Hn fuel ltac:(lia) (i + 4)).
    by destruct (visit_links _ fs (i + 4)).
  - destruct (next_functions o) as [fs|] eqn:Hfs;
      [|exists 1%nat; intros [|fuel] ? i; [lia|]; simpl;
        by rewrite Ho, Hg, Hfs].
    destruct (Hloop o fs) as [n Hn]; [done..|].
    exists (S n). intros [|fuel] ? i; [lia|]. simpl.
    rewrite Ho, Hg, Hfs.
    specialize (Hn fuel ltac:(lia) (i + 4)).
    by destruct (visit_links _ fs (i + 4)).
Qed.

(** More fuel does not change a call that had enough. *)
Lemma visit_links_mono rec1 rec2 fs i :
  (∀ f, (rec1 f i).1 ≠ OutOfFuel → rec2 f i = rec1 f i) →
  (visit_links rec1 fs i).1 ≠ OutOfFuel →
  visit_links rec2 fs i = visit_links rec1 fs i.
Proof.
  intros Hrec. induction fs as [|[[f|] k] fs IH]; simpl; [done| |done].
  destruct (rec1 f i) as [r ls] eqn:Hf. intros Hne.
  rewrite (Hrec f), Hf; [|rewrite Hf; by destruct r as [[]| | |]].
  destruct r as [[]| | |]; try done.
  rewrite IH; [done|]. by destruct (visit_links rec1 fs i).
Qed.

Lemma visit_mono fuel fuel' h v i :
  (fuel ≤ fuel')%nat →
  (visit fuel h v i).1 ≠ OutOfFuel →
  visit fuel' h v i = visit fuel h v i.
Proof.
  revert fuel' v i. induction fuel as [|fuel IH]; intros fuel' v i Hle;
    [done|].
  destruct fuel' as [|fuel']; [lia|]. simpl.
  assert (Hloop : ∀ fs, (visit_links (visit fuel h) fs (i + 4)).1 ≠ OutOfFuel →
    visit_links (visit fuel' h) fs (i + 4)
    = visit_links (visit fuel h) fs (i + 4)).
  { intros fs. apply visit_links_mono. intros f. apply IH. lia. }
  destruct (h !! v) as [o|]; [|done].
  destruct (grad_fn o) as [[g|]|].
  - destruct (h !! g) as [og|]; [|done].
    destruct (next_functions og) as [fs|]; [|done].
    intros Hne. rewrite Hloop; [done|].
    by destruct (visit_links (visit fuel h) fs (i + 4)).
  - destruct (next_functions o) as [fs|]; [|done].
    intros Hne. rewrite Hloop; [done|].
    by destruct (visit_links (visit fuel h) fs (i + 4)).
  - destruct (next_functions o) as [fs|]; [|done].
    intros Hne. rewrite Hloop; [done|].
    by destruct (visit_links (visit fuel h) fs (i + 4)).
Qed.

(** C7.  When no object of the store reaches itself through [grad_fn] and
    [next_functions] links (the store is finite), every call of the
    inspector ends: from some amount of fuel on, the interpreter never runs
    out, and the call ends the same way and prints the same lines. *)
Theorem print_grad_graph_terminates (w : world) (tensor : addr) (indent : Z) :
  acyclic (heap w) →
  ∃ fuel0, ∀ fuel, (fuel0 ≤ fuel)%nat →
    (print_grad_graph fuel tensor indent w).1 ≠ OutOfFuel ∧
    print_grad_graph fuel tensor indent w
    = print_grad_graph fuel0 tensor indent w.
Proof.
  intros Hacyc. destruct (visit_terminates (heap w) tensor Hacyc) as [n Hn].
  exists n. intros fuel Hfuel. rewrite !print_grad_graph_visit. simpl.
  split; [by apply Hn|].
  rewrite (visit_mono n fuel); [done..|]. by apply Hn.
Qed.

Lemma ranked_refers rank h a b :
  ranked rank h = true → refers h a b → (rank b < rank a)%nat.
Proof.
  unfold ranked. rewrite forallb_forall. intros Hall (o & Ho & Hab).
  apply elem_of_map_to_list, list_elem_of_In, Hall in Ho.
  rewrite forallb_forall in Ho. apply Nat.ltb_lt, Ho, list_elem_of_In.
  unfold refs_of. apply elem_of_app. destruct Hab as [->|(fs & k & -> & Hin)].
  - left. by apply list_elem_of_singleton.
  - right. apply list_elem_of_omap. by exists (Some b, k).
Qed.

Lemma ranked_acyclic rank h : ranked rank h = true → acyclic h.
Proof.
  intros Hr a Ha.
  assert (Hlt : ∀ x y, tc (refers h) x y → (rank y < rank x)%nat).
  { induction 1 as [x y Hxy|x y z Hxy _ IH].
    - by eapply ranked_refers.
    - eapply ranked_refers in Hxy; [|done]. lia. }
  specialize (Hlt a a Ha). lia.
Qed.

Lemma self_loop_cyclic : ¬ acyclic (heap self_loop).
Proof.
  intros Hacyc. apply (Hacyc 1%positive), tc_once.
  eexists. split; [reflexivity|]. right. eexists _, _. split; [done|]. by left.
Qed.

Lemma print_grad_graph_self_loop fuel indent :
  (print_grad_graph fuel 1 indent self_loop).1 = OutOfFuel.
Proof.
  rewrite print_grad_graph_visit.
  assert (Hh : heap self_loop !! 1%positive
    = Some (PyObj "<loop>" None (Some [(Some 1%positive, 0)]) false None None))
    by reflexivity.
  generalize dependent (heap self_loop). intros h Hh. simpl. revert indent.
  induction fuel as [|fuel IH]; intros indent; [done|].
  simpl. rewrite Hh. simpl. specialize (IH (indent + 4)).
  destruct (visit fuel h 1 (indent + 4)) as [[[]| | |] ls]; done.
Qed.

(** ** Pre-order rendering of the tree unfolding *)

Lemma tree_ind' (P : tree → Prop) :
  (∀ label children, Forall P children → P (Tree label children)) →
  ∀ t, P t.
Proof.
  intros Hnode. fix IH 1. intros [label children]. apply Hnode.
  induction children as [|t ts IHts]; constructor; [apply IH|apply IHts].
Qed.

Lemma unfolds_ind' h (P : addr → tree → Prop) :
  (∀ v o on fs ts,
      h !! v = Some o → h !! entry o v = Some on →
      next_functions on = Some fs →
      Forall2 (λ f t, unfolds h f t ∧ P f t) (omap fst fs) ts →
      P v (Tree (py_str on) ts)) →
  ∀ v t, unfolds h v t → P v t.
Proof.
  intros Hnode. fix IH 3. intros v t Hvt.
  destruct Hvt as [v o on fs ts Ho Hon Hfs Hts].
  apply (Hnode v o on fs ts Ho Hon Hfs).
  clear Ho Hon Hfs. generalize dependent (omap fst fs). clear fs.
  revert ts. fix IHts 3. intros ts l Hl.
  destruct Hl as [|f t l' ts' Hft Hrest].
  - constructor.
  - constructor; [split; [exact Hft|exact (IH f t Hft)]|].
    exact (IHts ts' l' Hrest).
Qed.

Lemma render_shift indent depth t :
  render indent (S depth) t = render (indent + 4) depth t.
Proof.
  revert depth. induction t as [label children IH] using tree_ind'.
  intros depth. simpl. f_equal; [f_equal; f_equal; lia|].
  induction IH as [|t ts Ht _ IHts]; simpl; [done|].
  by rewrite Ht, IHts.
Qed.

Lemma visit_links_render h fs ts :
  Forall2 (λ f t, unfolds h f t ∧
    ∃ n, ∀ fuel, (n ≤ fuel)%nat → ∀ i,
      visit fuel h f i = (Returned tt, render i 0 t)) (omap fst fs) ts →
  ∃ n, ∀ fuel, (n ≤ fuel)%nat → ∀ i,
    visit_links (visit fuel h) fs i = (Returned tt, flat_map (render i 0) ts).
Proof.
  revert ts. induction fs as [|[[f|] k] fs IH]; intros ts Hts; simpl in *.
  - apply Forall2_nil_inv_l in Hts as ->. by exists 0%nat.
  - apply Forall2_cons_inv_l in Hts as (t & ts' & [_ [n Hn]] & Hts' & ->).
    destruct (IH ts' Hts') as [m Hm].
    exists (n `max` m)%nat. intros fuel Hfuel i.
    rewrite Hn, Hm by lia. done.
  - by apply IH.
Qed.

(** C3.  When the graph under the value [v] unfolds to the tree [t], a
    call with enough fuel returns and prints exactly the root-first,
    depth-first text of [t]: each node on a line of its own, indented by
    the initial indent plus four spaces per level of depth, before the
    lines of its non-null operand links taken in order; nothing is printed
    for a null link, and nothing else changes. *)
Theorem print_grad_graph_preorder (h : gmap addr pyobj) (v : addr) (t : tree)
    (indent : Z) :
  unfolds h v t →
  ∃ fuel0, ∀ fuel, (fuel0 ≤ fuel)%nat → ∀ w, heap w = h →
    print_grad_graph fuel v indent w
    = (Returned tt, printed w (render indent 0 t)).
Proof.
  intros Hvt.
  assert (Hvisit : ∃ n, ∀ fuel, (n ≤ fuel)%nat → ∀ i,
    visit fuel h v i = (Returned tt, render i 0 t)).
  { clear indent. induction Hvt as [v o on fs ts Ho Hon Hfs Hts]
      using unfolds_ind'.
    destruct (visit_links_render h fs ts Hts) as [n Hn].
    exists (S n). intros [|fuel] Hfuel i; [lia|].
    assert (Hrender : render i 0 (Tree (py_str on) ts)
      = (str_mul " " i +:+ py_str on) :: flat_map (render (i + 4) 0) ts).
    { simpl. f_equal; [do 2 f_equal; lia|].
      clear. induction ts as [|t ts IH]; simpl; [done|].
      by rewrite render_shift, IH. }
    rewrite Hrender. simpl. rewrite Ho. unfold entry in Hon.
    destruct (grad_fn o) as [[g|]|]; simplify_eq; rewrite ?Hon, Hfs; simpl;
      by rewrite Hn by lia. }
  destruct Hvisit as [n Hn]. exists n. intros fuel Hfuel w <-.
  by rewrite print_grad_graph_visit, Hn.
Qed.

Lemma unfold_tree_sound fuel h v t :
  unfold_tree fuel h v = Some t → unfolds h v t.
Proof.
  revert v t. induction fuel as [|fuel IH]; intros v t Ht; [done|].
  simpl in Ht.
  destruct (h !! v) as [o|] eqn:Ho; [|done]. simpl in Ht.
  destruct (h !! entry o v) as [on|] eqn:Hon; [|done]. simpl in Ht.
  destruct (next_functions on) as [fs|] eqn:Hfs; [|done]. simpl in Ht.
  destruct (mapM (unfold_tree fuel h) (omap fst fs)) as [ts|] eqn:Hts;
    [|done].
  simpl in Ht. injection Ht as <-.
  apply (unfolds_node h v o on fs ts Ho Hon Hfs).
  apply mapM_Some_1 in Hts. eapply Forall2_impl; [exact Hts|].
  intros f t'. apply IH.
Qed.

Lemma is_node_entry o v : is_node o = true → entry o v = v.
Proof.
  unfold is_node, entry. by destruct (grad_fn o) as [[g|]|].
Qed.

Lemma is_node_next_functions o :
  is_node o = true → ∃ fs, next_functions o = Some fs.
Proof.
  unfold is_node.
  destruct (grad_fn o) as [[g|]|]; [done| |];
    destruct (next_functions o) as [fs|]; try done; by exists fs.
Qed.

(** Every value that designates a node of an acyclic provenance graph has
    a tree unfolding. *)
Lemma unfolds_total h v o on :
  provenance_graph h → acyclic h →
  h !! v = Some o → h !! entry o v = Some on → is_node on = true →
  ∃ t, unfolds h v t.
Proof.
  intros Hpg Hacyc. revert o on.
  induction (acyclic_calls_sn h v Hacyc) as [v _ IH].
  intros o on Ho Hon Hnode.
  destruct (is_node_next_functions on Hnode) as [fs Hfs].
  assert (Hts : ∃ ts, Forall2 (unfolds h) (omap fst fs) ts).
  { assert (Hall : ∀ f k, (Some f, k) ∈ fs → ∃ t, unfolds h f t).
    { intros f k Hin.
      destruct (Hpg (entry o v) on fs f k Hon Hfs Hin) as (o' & Ho' & Hnode').
      apply (IH f) with o' o'; [by exists o, on, fs, k|done| |done].
      by rewrite is_node_entry. }
    clear Hfs. induction fs as [|[[f|] k] fs IHfs]; simpl.
    - by exists [].
    - destruct (Hall f k) as [t Ht]; [by left|].
      destruct IHfs as [ts Hts]; [intros f' k' Hin; apply (Hall f' k'); by right|].
      exists (t :: ts). by constructor.
    - apply IHfs. intros f' k' Hin. apply (Hall f' k'). by right. }
  destruct Hts as [ts Hts]. exists (Tree (py_str on) ts).
  by apply (unfolds_node h v o on fs ts).
Qed.

(** ** One line per path *)

Lemma link_at_app h n o pre l fs :
  h !! n = Some o → next_functions o = Some (pre ++ l :: fs) →
  link_at h n (length pre) = l.1.
Proof.
  intros Ho Hfs. unfold link_at. rewrite Ho. simpl. rewrite Hfs. simpl.
  by rewrite list_lookup_middle.
Qed.

Lemma path_line_cons h n f indent j p :
  link_at h n j = Some f →
  path_line h n indent (j :: p) = path_line h f (indent + 4) p.
Proof.
  intros Hj. unfold path_line. simpl. rewrite Hj. simpl.
  do 2 f_equal. lia.
Qed.

Lemma elem_of_link_paths_head rec j fs p :
  p ∈ link_paths rec j fs → ∃ j' p', p = j' :: p' ∧ (j ≤ j')%nat.
Proof.
  revert j. induction fs as [|[f k] fs IH]; intros j; simpl.
  - by intros ?%elem_of_nil.
  - intros [Hin|Hin]%elem_of_app.
    + destruct f as [f|]; [|by apply elem_of_nil in Hin].
      apply list_elem_of_fmap in Hin as (p' & -> & _). by exists j, p'.
    + destruct (IH _ Hin) as (j' & p' & -> & Hle). exists j', p'.
      split; [done|lia].
Qed.

Lemma visit_links_paths h fuel n o i pre fs :
  h !! n = Some o → next_functions o = Some (pre ++ fs) →
  (∀ f k, (Some f, k) ∈ fs →
     (visit fuel h f (i + 4)).1 ≠ OutOfFuel → visit_spec h fuel f (i + 4)) →
  (visit_links (visit fuel h) fs (i + 4)).1 ≠ OutOfFuel →
  visit_links (visit fuel h) fs (i + 4)
  = (Returned tt,
     map (path_line h n i) (link_paths (paths fuel h) (length pre) fs)) ∧
  NoDup (link_paths (paths fuel h) (length pre) fs) ∧
  ∀ j p, (length pre ≤ j)%nat →
    j :: p ∈ link_paths (paths fuel h) (length pre) fs
    ↔ is_Some (follow h n (j :: p)).
Proof.
  intros Ho. revert pre.
  induction fs as [|[f k] fs IH]; intros pre Hfs Hrec Hne.
  { simpl. split; [done|]. split; [constructor|]. intros j p Hj.
    split; [by intros ?%elem_of_nil|]. simpl. unfold link_at.
    rewrite Ho. simpl. rewrite Hfs. simpl.
    rewrite lookup_ge_None_2; [by intros [? ?]|].
    rewrite length_app. simpl. lia. }
  pose proof (link_at_app h n o pre (f, k) fs Ho Hfs) as Hat. simpl in Hat.
  assert (Hfs' : next_functions o = Some ((pre ++ [(f, k)]) ++ fs))
    by by rewrite <- app_assoc.
  assert (Hlen : length (pre ++ [(f, k)]) = S (length pre))
    by (rewrite length_app; simpl; lia).
  specialize (IH (pre ++ [(f, k)]) Hfs'). rewrite Hlen in IH.
  assert (Hrec' : ∀ f' k', (Some f', k') ∈ fs →
    (visit fuel h f' (i + 4)).1 ≠ OutOfFuel → visit_spec h fuel f' (i + 4)).
  { intros f' k' Hin. apply (Hrec f' k'). by right. }
  specialize (IH Hrec').
  destruct f as [f|]; simpl in *.
  - destruct (visit fuel h f (i + 4)) as [r ls] eqn:Hf.
    assert (Hr : r ≠ OutOfFuel) by (by destruct r as [[]| | |]).
    destruct (Hrec f k) as (Hv & Hnd & Hmem);
      [by left|by rewrite Hf|].
    rewrite Hf in Hv. simplify_eq.
    destruct IH as (Hl & Hnd' & Hmem');
      [by destruct (visit_links (visit fuel h) fs (i + 4))|].
    rewrite Hl. split; [|split].
    + f_equal. rewrite map_app, map_map. f_equal.
      apply map_ext. intros p. symmetry. by apply path_line_cons.
    + apply NoDup_app. split; [|split; [|done]].
      * by apply (NoDup_fmap_2 (cons (length pre))).
      * intros p (p' & -> & _)%list_elem_of_fmap Hin.
        apply elem_of_link_paths_head in Hin as (j' & p'' & [= <- _] & Hle).
        lia.
    + intros j p Hj. rewrite elem_of_app.
      destruct (decide (j = length pre)) as [->|Hne'].
      * rewrite Hat. simpl. rewrite <- Hmem. split.
        -- intros [(p' & [= <-] & Hin)%list_elem_of_fmap|Hin]; [done|].
           apply elem_of_link_paths_head in Hin as (j' & p'' & [= <- _] & Hle).
           lia.
        -- intros Hin. left. apply list_elem_of_fmap. by exists p.
      * rewrite <- (Hmem' j p) by lia. split; [|by right].
        intros [(p' & [= -> _] & _)%list_elem_of_fmap|Hin]; done.
  - destruct IH as (Hl & Hnd' & Hmem'); [done|].
    split; [done|]. split; [done|]. intros j p Hj.
    destruct (decide (j = length pre)) as [->|Hne'].
    + rewrite Hat. simpl. split; [|by intros [? ?]].
      intros Hin.
      apply elem_of_link_paths_head in Hin as (j' & p'' & [= <- _] & Hle).
      lia.
    + apply Hmem'. lia.
Qed.

Lemma visit_node_paths h :
  provenance_graph h →
  ∀ fuel n o i,
    h !! n = Some o → is_node o = true →
    (visit fuel h n i).1 ≠ OutOfFuel → visit_spec h fuel n i.
Proof.
  intros Hpg. induction fuel as [|fuel IH]; intros n o i Ho Hnode Hne;
    [done|].
  assert (∃ fs, next_functions o = Some fs ∧
    visit (S fuel) h n i
    = (let '(r, ls) := visit_links (visit fuel h) fs (i + 4) in
       (r, (str_mul " " i +:+ py_str o) :: ls))) as (fs & Hfs & Hv).
  { unfold is_node in Hnode. simpl. rewrite Ho.
    destruct (grad_fn o) as [[g|]|]; [done| |];
      destruct (next_functions o) as [fs|]; try done; by exists fs. }
  rewrite Hv in Hne.
  destruct (visit_links_paths h fuel n o i [] fs Ho Hfs) as (Hl & Hnd & Hmem).
  { intros f k Hin Hf.
    destruct (Hpg n o fs f k Ho Hfs Hin) as (o' & Ho' & Hnode').
    by apply (IH f o'). }
  { by destruct (visit_links (visit fuel h) fs (i + 4)). }
  assert (Hp : paths (S fuel) h n = [] :: link_paths (paths fuel h) 0 fs).
  { simpl. rewrite Ho. simpl. by rewrite Hfs. }
  unfold visit_spec. rewrite Hp, Hv, Hl. simpl in *. split; [|split].
  - do 2 f_equal. unfold path_line. simpl. rewrite Ho. simpl.
    do 2 f_equal. lia.
  - apply NoDup_cons. split; [|done].
    by intros (j & p & [=] & _)%elem_of_link_paths_head.
  - intros [|j p]; simpl.
    + split; [by eexists|]. intros _. by left.
    + rewrite elem_of_cons, (Hmem j p) by lia.
      split; [by intros [?|?]|by right].
Qed.

(** C9.  On an acyclic provenance graph the lines printed are in
    one-to-one correspondence with the paths from the root node through
    non-null links: there is a duplicate-free list of all these paths such
    that the output is, path by path, the line of the node the path leads
    to, indented by its length.  A node that [k] paths lead to is therefore
    printed [k] times. *)
Theorem print_grad_graph_one_line_per_path (h : gmap addr pyobj)
    (v : addr) (o on : pyobj) (indent : Z) :
  provenance_graph h → acyclic h →
  h !! v = Some o → h !! entry o v = Some on → is_node on = true →
  ∃ fuel0 ps,
    NoDup ps ∧
    (∀ p, p ∈ ps ↔ is_Some (follow h (entry o v) p)) ∧
    ∀ fuel, (fuel0 ≤ fuel)%nat → ∀ w, heap w = h →
      print_grad_graph fuel v indent w
      = (Returned tt, printed w (map (path_line h (entry o v) indent) ps)).
Proof.
  intros Hpg Hacyc Ho Hon Hnode.
  destruct (visit_terminates h (entry o v) Hacyc) as [n Hn].
  destruct (visit_node_paths h Hpg (S n) (entry o v) on indent Hon Hnode)
    as (Hv & Hnd & Hmem); [apply Hn; lia|].
  exists (S n), (paths (S n) h (entry o v)). split; [done|]. split; [done|].
  intros fuel Hfuel w <-.
  assert (Hentry : ∀ fuel', visit (S fuel') (heap w) v indent
    = visit (S fuel') (heap w) (entry o v) indent).
  { intros fuel'. unfold entry in *. simpl. rewrite Ho.
    destruct (grad_fn o) as [[g|]|] eqn:Hg; [|by rewrite Ho, Hg..].
    rewrite Hon. unfold is_node in Hnode.
    destruct (grad_fn on) as [[g'|]|]; [done| |];
      by destruct (next_functions on). }
  destruct fuel as [|fuel]; [lia|].
  rewrite print_grad_graph_visit, Hentry, (visit_mono (S n) (S fuel)), Hv;
    [done|lia|]. apply Hn. lia.
Qed.

Lemma provenance_graphb_sound h :
  provenance_graphb h = true → provenance_graph h.
Proof.
  unfold provenance_graphb. rewrite forallb_forall.
  intros Hall a o fs f k Ho Hfs Hin.
  apply elem_of_map_to_list, list_elem_of_In, Hall in Ho.
  rewrite Hfs, forallb_forall in Ho.
  specialize (Ho f). destruct (h !! f) as [o'|].
  - exists o'. split; [done|]. apply Ho, list_elem_of_In, list_elem_of_omap.
    by exists (Some f, k).
  - discriminate Ho. apply list_elem_of_In, list_elem_of_omap.
    by exists (Some f, k).
Qed.

(** ** The provenance of the affine model *)

Lemma mapM_read {A} (g : pyobj → A) (inputs : list addr) (os : list pyobj) w :
  Forall2 (λ t o, heap w !! t = Some o) inputs os →
  mapM (λ t, o ← deref t; mret (g o)) inputs w = (Returned (g <$> os), w).
Proof.
  induction 1 as [|t o inputs os Ht _ IH]; [done|].
  simpl. cbv [mbind M_bind bind deref mret M_ret ret] in *.
  by rewrite Ht, IH.
Qed.

Lemma apply_op_run name inputs os w :
  Forall2 (λ t o, heap w !! t = Some o) inputs os →
  torch.apply_op name inputs w =
  let n := next_addr w in
  if existsb requires_grad os then
    (Returned (Pos.succ n),
     World (<[Pos.succ n := PyObj "tensor(...)" (Some (Some n)) None true None None]>
             (<[n := PyObj (torch.node_str name n) None
                       (Some (torch.edge_of <$> os)) false None None]> (heap w)))
           (Pos.succ (Pos.succ n)) (stdout w))
  else
    (Returned n,
     World (<[n := PyObj "tensor(...)" (Some None) None false None None]> (heap w))
           (Pos.succ n) (stdout w)).
Proof.
  intros Hos. unfold torch.apply_op, torch.get_requires_grad, torch.gradient_edge.
  unfold mbind at 1, M_bind at 1, bind at 1.
  rewrite (mapM_read requires_grad inputs os w Hos).
  replace (existsb id (requires_grad <$> os)) with (existsb requires_grad os)
    by (clear; induction os as [|o os IH]; simpl; [done|by rewrite IH]).
  destruct (existsb requires_grad os); [|done].
  unfold mbind at 1, M_bind at 1, bind at 1.
  by rewrite (mapM_read torch.edge_of inputs os w Hos).
Qed.

Lemma leaf_edge_of h t edge o :
  leaf h t edge → h !! t = Some o → torch.edge_of o = (edge, 0).
Proof.
  intros (o' & Ho' & Hg & He) Ho. simplify_eq. unfold torch.edge_of.
  rewrite Hg. destruct edge as [acc|].
  - destruct He as (-> & -> & _). done.
  - by rewrite He.
Qed.

Lemma result_edge_of h y n o :
  result_of h y n → h !! y = Some o → torch.edge_of o = (Some n, 0).
Proof.
  intros (o' & Ho' & Hg & _) Ho. simplify_eq. unfold torch.edge_of.
  by rewrite Hg.
Qed.

Lemma fresh_from_lookup w a o :
  fresh_from w → heap w !! a = Some o → (a < next_addr w)%positive.
Proof.
  intros Hfresh Ho. destruct (decide (a < next_addr w)%positive); [done|].
  rewrite Hfresh in Ho; [done|lia].
Qed.

Lemma extends_trans w1 w2 w3 : extends w1 w2 → extends w2 w3 → extends w1 w3.
Proof. intros H12 H23 a o Ha. by apply H23, H12. Qed.

Lemma extends_backward_node w w' a name fs :
  extends w w' → backward_node (heap w) a name fs →
  backward_node (heap w') a name fs.
Proof. intros Hext (o & Ho & Hrest). exists o. split; [by apply Hext|done]. Qed.

Lemma extends_leaf_marker w w' a t :
  extends w w' → leaf_marker (heap w) a t → leaf_marker (heap w') a t.
Proof. intros Hext (o & Ho & Hrest). exists o. split; [by apply Hext|done]. Qed.

Lemma extends_result_of w w' y n :
  extends w w' → result_of (heap w) y n → result_of (heap w') y n.
Proof. intros Hext (o & Ho & Hrest). exists o. split; [by apply Hext|done]. Qed.

(** A recorded operation with a tracked input: the result and its backward
    node are two new objects, and nothing else changes. *)
Lemma apply_op_tracked name inputs os w :
  fresh_from w →
  Forall2 (λ t o, heap w !! t = Some o) inputs os →
  existsb requires_grad os = true →
  ∃ y w',
    torch.apply_op name inputs w = (Returned y, w') ∧
    fresh_from w' ∧ extends w w' ∧
    result_of (heap w') y (next_addr w) ∧
    backward_node (heap w') (next_addr w) name (torch.edge_of <$> os).
Proof.
  intros Hfresh Hos Htracked.
  rewrite (apply_op_run name inputs os w Hos). simpl. rewrite Htracked.
  set (n := next_addr w). eexists _, _. split; [done|]. simpl.
  split; [|split; [|split]].
  - intros a Ha. simpl in *. rewrite !lookup_insert_ne by lia.
    apply Hfresh. fold n. lia.
  - intros a o Ha. simpl. apply (fresh_from_lookup w a o Hfresh) in Ha as Hlt.
    fold n in Hlt. rewrite !lookup_insert_ne by lia. done.
  - eexists. split; [by rewrite lookup_insert_eq|by split].
  - eexists. split;
      [rewrite lookup_insert_ne by lia; by rewrite lookup_insert_eq|].
    by repeat split.
Qed.

(** [forward] records a multiply-node, then an add-node over it. *)
Lemma forward_run (w : world) (self : LinearRegressionModel)
    (x acc_w acc_b : addr) (x_edge : option addr) :
  fresh_from w →
  leaf (heap w) (weights self) (Some acc_w) →
  leaf (heap w) (bias self) (Some acc_b) →
  leaf (heap w) x x_edge →
  ∃ y w' add_n mul_n,
    forward self x w = (Returned y, w') ∧
    fresh_from w' ∧ extends w w' ∧
    result_of (heap w') y add_n ∧
    backward_node (heap w') add_n "AddBackward0"
      [(Some mul_n, 0); (Some acc_b, 0)] ∧
    backward_node (heap w') mul_n "MulBackward0"
      [(Some acc_w, 0); (x_edge, 0)].
Proof.
  intros Hfresh Hw Hb Hx.
  pose proof Hw as (ow & How & _ & Hrw & _).
  pose proof Hb as (ob & Hob & _).
  pose proof Hx as (ox & Hox & _).
  destruct (apply_op_tracked "MulBackward0" [weights self; x] [ow; ox] w)
    as (wx & w1 & Hrun1 & Hfresh1 & Hext1 & Hwx & Hmul);
    [done|by repeat constructor|by simpl; rewrite Hrw|].
  pose proof Hwx as (owx & Howx & _ & Hrwx).
  destruct (apply_op_tracked "AddBackward0" [wx; bias self] [owx; ob] w1)
    as (y & w2 & Hrun2 & Hfresh2 & Hext2 & Hy & Hadd);
    [done|repeat constructor; [done|by apply Hext1]|by simpl; rewrite Hrwx|].
  exists y, w2, (next_addr w1), (next_addr w).
  split; [|split; [done|split; [by eapply extends_trans|split; [done|split]]]].
  - unfold forward, torch.mul, torch.add.
    unfold mbind at 1, M_bind at 1, bind at 1. by rewrite Hrun1.
  - simpl in Hadd.
    by rewrite (result_edge_of _ _ _ _ Hwx Howx),
      (leaf_edge_of _ _ _ _ Hb Hob) in Hadd.
  - apply (extends_backward_node w1 w2); [done|]. simpl in Hmul.
    by rewrite (leaf_edge_of _ _ _ _ Hw How),
      (leaf_edge_of _ _ _ _ Hx Hox) in Hmul.
Qed.

(** C1.  [forward] on a model whose weight and bias are tracked leaves and
    on a leaf input [x]: the result's [grad_fn] is an add-node whose links
    are, in order, a multiply-node and the leaf marker of the bias; the
    multiply-node's links are the leaf marker of the weight and the link of
    [x], which is null when [x] is not tracked and the leaf marker of [x]
    when it is. *)
Theorem forward_provenance (w : world) (self : LinearRegressionModel)
    (x acc_w acc_b : addr) (x_edge : option addr) :
  fresh_from w →
  leaf (heap w) (weights self) (Some acc_w) →
  leaf (heap w) (bias self) (Some acc_b) →
  leaf (heap w) x x_edge →
  ∃ y w' add_n mul_n,
    forward self x w = (Returned y, w') ∧
    (∃ o, heap w' !! y = Some o ∧ grad_fn o = Some (Some add_n)) ∧
    backward_node (heap w') add_n "AddBackward0"
      [(Some mul_n, 0); (Some acc_b, 0)] ∧
    backward_node (heap w') mul_n "MulBackward0"
      [(Some acc_w, 0); (x_edge, 0)] ∧
    leaf_marker (heap w') acc_b (bias self) ∧
    leaf_marker (heap w') acc_w (weights self) ∧
    match x_edge with
    | Some acc_x => leaf_marker (heap w') acc_x x
    | None => True
    end.
Proof.
  intros Hfresh Hw Hb Hx.
  destruct (forward_run w self x acc_w acc_b x_edge Hfresh Hw Hb Hx)
    as (y & w' & add_n & mul_n & Hrun & _ & Hext & (o & Ho & Hg & _) & Hadd & Hmul).
  exists y, w', add_n, mul_n. split; [done|]. split; [by exists o|].
  split; [done|]. split; [done|].
  destruct Hw as (_ & _ & _ & _ & _ & Hmw).
  destruct Hb as (_ & _ & _ & _ & _ & Hmb).
  split; [by eapply extends_leaf_marker|].
  split; [by eapply extends_leaf_marker|].
  destruct x_edge as [acc_x|]; [|done].
  destruct Hx as (_ & _ & _ & _ & _ & Hmx). by eapply extends_leaf_marker.
Qed.

(** C2.  The loss [L1Loss(forward(x), y_true)] over an untracked [y_true]:
    the [grad_fn] of the loss is a mean-node whose only link is an
    absolute-value node, whose only link is a subtraction node, whose links
    are, in order, the add-node of the prediction and a null link. *)
Theorem loss_provenance (w : world) (self : LinearRegressionModel)
    (x y_true acc_w acc_b : addr) (x_edge : option addr) :
  fresh_from w →
  leaf (heap w) (weights self) (Some acc_w) →
  leaf (heap w) (bias self) (Some acc_b) →
  leaf (heap w) x x_edge →
  leaf (heap w) y_true None →
  ∃ y_pred loss w' mean_n abs_n sub_n add_n mul_n,
    (y_pred ← forward self x;
     loss ← torch.L1Loss y_pred y_true;
     mret (y_pred, loss)) w = (Returned (y_pred, loss), w') ∧
    (∃ o, heap w' !! loss = Some o ∧ grad_fn o = Some (Some mean_n)) ∧
    backward_node (heap w') mean_n "MeanBackward0" [(Some abs_n, 0)] ∧
    backward_node (heap w') abs_n "AbsBackward0" [(Some sub_n, 0)] ∧
    backward_node (heap w') sub_n "SubBackward0"
      [(Some add_n, 0); (None, 0)] ∧
    (∃ o, heap w' !! y_pred = Some o ∧ grad_fn o = Some (Some add_n)) ∧
    backward_node (heap w') add_n "AddBackward0"
      [(Some mul_n, 0); (Some acc_b, 0)].
Proof.
  intros Hfresh Hw Hb Hx Ht.
  destruct (forward_run w self x acc_w acc_b x_edge Hfresh Hw Hb Hx)
    as (y & w1 & add_n & mul_n & Hrun1 & Hfresh1 & Hext1 & Hy & Hadd & _).
  pose proof Hy as (oy & Hoy & Hgy & Hry).
  pose proof Ht as (ot & Hot & _).
  destruct (apply_op_tracked "SubBackward0" [y; y_true] [oy; ot] w1)
    as (d & w2 & Hrun2 & Hfresh2 & Hext2 & Hd & Hsub);
    [done|repeat constructor; [done|by apply Hext1]|by simpl; rewrite Hry|].
  pose proof Hd as (od & Hod & _ & Hrd).
  destruct (apply_op_tracked "AbsBackward0" [d] [od] w2)
    as (a & w3 & Hrun3 & Hfresh3 & Hext3 & Ha & Habs);
    [done|by repeat constructor|by simpl; rewrite Hrd|].
  pose proof Ha as (oa & Hoa & _ & Hra).
  destruct (apply_op_tracked "MeanBackward0" [a] [oa] w3)
    as (l & w4 & Hrun4 & Hfresh4 & Hext4 & Hl & Hmean);
    [done|by repeat constructor|by simpl; rewrite Hra|].
  exists y, l, w4, (next_addr w3), (next_addr w2), (next_addr w1), add_n, mul_n.
  split; [|split; [|split; [|split; [|split; [|split]]]]].
  - unfold torch.L1Loss, torch.sub, torch.abs, torch.mean.
    cbv [mbind M_bind bind mret M_ret ret].
    by rewrite Hrun1, Hrun2, Hrun3, Hrun4.
  - destruct Hl as (o & Ho & Hg & _). by exists o.
  - simpl in Hmean. by rewrite (result_edge_of _ _ _ _ Ha Hoa) in Hmean.
  - apply (extends_backward_node w3 w4); [done|]. simpl in Habs.
    by rewrite (result_edge_of _ _ _ _ Hd Hod) in Habs.
  - apply (extends_backward_node w2 w4); [by eapply extends_trans|].
    simpl in Hsub.
    rewrite (result_edge_of _ _ _ _ Hy Hoy) in Hsub.
    by rewrite (leaf_edge_of (heap w) y_true None ot Ht Hot) in Hsub.
  - exists oy. split; [|done]. by apply Hext4, Hext3, Hext2.
  - apply (extends_backward_node w1 w4); [|done].
    eapply extends_trans; [done|]. by eapply extends_trans.
Qed.

Lemma fresh_fromb_sound w : fresh_fromb w = true → fresh_from w.
Proof.
  unfold fresh_fromb. rewrite forallb_forall. intros Hall a Ha.
  destruct (heap w !! a) as [o|] eqn:Ho; [|done].
  apply elem_of_map_to_list, list_elem_of_In, Hall, Pos.ltb_lt in Ho. lia.
Qed.

(** ** The multiplication notebook: results *)

(** Batched multiplication of two batches of one is the matrix product in
    a batch of one. *)
Lemma bmm_unsqueeze0 (a b : list (list Z)) :
  torch_int.bmm (torch_int.unsqueeze0 a) (torch_int.unsqueeze0 b)
  = torch_int.unsqueeze0 <$> torch_int.mm a b.
Proof. simpl. by destruct (torch_int.mm a b). Qed.

(** C5.  On [mat1 = [[1,2],[3,4]]] and the all-ones [mat2]: [torch.mul]
    gives [[1,2],[3,4]]; [torch.matmul] and [torch.mm] give
    [[3,3],[7,7]]; [torch.bmm] on the two batches of one gives
    [[[3,3],[7,7]]]. *)
Theorem multiplication_results :
  mat2 = [[1; 1]; [1; 1]] ∧
  torch_int.mul mat1 mat2 = Some [[1; 2]; [3; 4]] ∧
  torch_int.matmul mat1 mat2 = Some [[3; 3]; [7; 7]] ∧
  torch_int.mm mat1 mat2 = Some [[3; 3]; [7; 7]] ∧
  torch_int.bmm (torch_int.unsqueeze0 mat1) (torch_int.unsqueeze0 mat2)
  = Some [[[3; 3]; [7; 7]]].
Proof.
  assert (Hmm : torch_int.mm mat1 mat2 = Some [[3; 3]; [7; 7]])
    by (vm_compute; reflexivity).
  split; [reflexivity|]. split; [vm_compute; reflexivity|].
  split; [exact Hmm|]. split; [exact Hmm|].
  rewrite bmm_unsqueeze0, Hmm. reflexivity.
Qed.

(** ** The notebook at its own inputs *)

Ltac by_lookup := eexists; split; [reflexivity|repeat split].

Example setup_untracked :
  (setup false init_world).1 = Returned (notebook_model, 7%positive, 8%positive).
Proof. reflexivity. Qed.

Example setup_tracked :
  (setup true init_world).1 = Returned (notebook_model, 7%positive, 9%positive).
Proof. reflexivity. Qed.

(** The cells that inspect [y_pred]: its [grad_fn] is the add-node, whose
    [next_functions] are the multiply-node and the bias's accumulator; the
    multiply-node's are the weight's accumulator and [None] for the
    untracked [x], or the accumulator of [x_with_grad]. *)
Example notebook_y_pred_links :
  ∃ w w',
    cell_y_pred false init_world
    = (Returned (notebook_model, 7%positive, 11%positive), w) ∧
    result_of (heap w) 11 10 ∧
    backward_node (heap w) 10 "AddBackward0"
      [(Some 8%positive, 0); (Some 6%positive, 0)] ∧
    backward_node (heap w) 8 "MulBackward0"
      [(Some 3%positive, 0); (None, 0)] ∧
    cell_y_pred true init_world
    = (Returned (notebook_model, 7%positive, 12%positive), w') ∧
    backward_node (heap w') 9 "MulBackward0"
      [(Some 3%positive, 0); (Some 8%positive, 0)] ∧
    leaf_marker (heap w') 8 7.
Proof.
  eexists _, _. split; [vm_compute; reflexivity|].
  split; [by_lookup|]. split; [by_lookup|]. split; [by_lookup|].
  split; [vm_compute; reflexivity|]. split; by_lookup.
Qed.

(** An object with neither attribute is passed over in silence; an object
    whose [grad_fn] has no [next_functions] gets its line printed before
    the attribute error. *)
Example print_grad_graph_plain_object :
  print_grad_graph 1 1 0 plain_world = (Returned tt, plain_world) ∧
  print_grad_graph 1 2 0
    (World (<[2%positive := PyObj "t" (Some (Some 1%positive)) None false
                              None None]> (heap plain_world)) 3 [])
  = (Raised AttributeError,
     World (<[2%positive := PyObj "t" (Some (Some 1%positive)) None false
                               None None]> (heap plain_world)) 3 ["5"]).
Proof. split; reflexivity. Qed.

(** The last cell of the notebook prints the seven lines of its recorded
    output (object identities apart). *)
Example notebook_loss_output :
  (cell_loss init_world).1 = Returned (notebook_model, 18%positive) ∧
  print_grad_graph 6 18 0 loss_world
  = (Returned tt,
     printed loss_world
       ["<MeanBackward0 object at 0x11>";
        "    <AbsBackward0 object at 0xf>";
        "        <SubBackward0 object at 0xd>";
        "            <AddBackward0 object at 0xb>";
        "                <MulBackward0 object at 0x9>";
        "                    <AccumulateGrad object at 0x3>";
        "                <AccumulateGrad object at 0x6>"]).
Proof. split; vm_compute; reflexivity. Qed.

(** ** The theorems at the notebook's inputs *)

(** [forward_provenance] on the notebook's model and its tracked input
    [x_with_grad]. *)
Lemma forward_provenance_witness :
  ∃ y w' add_n mul_n,
    forward notebook_model 7 tracked_world = (Returned y, w') ∧
    (∃ o, heap w' !! y = Some o ∧ grad_fn o = Some (Some add_n)) ∧
    backward_node (heap w') add_n "AddBackward0"
      [(Some mul_n, 0); (Some 6%positive, 0)] ∧
    backward_node (heap w') mul_n "MulBackward0"
      [(Some 3%positive, 0); (Some 8%positive, 0)] ∧
    leaf_marker (heap w') 6 5 ∧
    leaf_marker (heap w') 3 2 ∧
    leaf_marker (heap w') 8 7.
Proof.
  apply (forward_provenance tracked_world notebook_model 7 3 6
           (Some 8%positive)).
  - apply fresh_fromb_sound. vm_compute. reflexivity.
  - by_lookup. by_lookup.
  - by_lookup. by_lookup.
  - by_lookup. by_lookup.
Defined.

(** [loss_provenance] on the notebook's model, [x] and [y_true]. *)
Lemma loss_provenance_witness :
  ∃ y_pred loss w' mean_n abs_n sub_n add_n mul_n,
    (y_pred ← forward notebook_model 7;
     loss ← torch.L1Loss y_pred 8;
     mret (y_pred, loss)) untracked_world = (Returned (y_pred, loss), w') ∧
    (∃ o, heap w' !! loss = Some o ∧ grad_fn o = Some (Some mean_n)) ∧
    backward_node (heap w') mean_n "MeanBackward0" [(Some abs_n, 0)] ∧
    backward_node (heap w') abs_n "AbsBackward0" [(Some sub_n, 0)] ∧
    backward_node (heap w') sub_n "SubBackward0"
      [(Some add_n, 0); (None, 0)] ∧
    (∃ o, heap w' !! y_pred = Some o ∧ grad_fn o = Some (Some add_n)) ∧
    backward_node (heap w') add_n "AddBackward0"
      [(Some mul_n, 0); (Some 6%positive, 0)].
Proof.
  apply (loss_provenance untracked_world notebook_model 7 8 3 6 None).
  - apply fresh_fromb_sound. vm_compute. reflexivity.
  - by_lookup. by_lookup.
  - by_lookup. by_lookup.
  - by_lookup.
  - by_lookup.
Defined.

(** [print_grad_graph_preorder] on the loss of the last cell. *)
Lemma print_grad_graph_preorder_witness :
  ∃ fuel0, ∀ fuel, (fuel0 ≤ fuel)%nat → ∀ w, heap w = heap loss_world →
    print_grad_graph fuel 18 0 w
    = (Returned tt,
       printed w
         ["<MeanBackward0 object at 0x11>";
          "    <AbsBackward0 object at 0xf>";
          "        <SubBackward0 object at 0xd>";
          "            <AddBackward0 object at 0xb>";
          "                <MulBackward0 object at 0x9>";
          "                    <AccumulateGrad object at 0x3>";
          "                <AccumulateGrad object at 0x6>"]).
Proof.
  apply (print_grad_graph_preorder (heap loss_world) 18
    (Tree "<MeanBackward0 object at 0x11>"
      [Tree "<AbsBackward0 object at 0xf>"
        [Tree "<SubBackward0 object at 0xd>"
          [Tree "<AddBackward0 object at 0xb>"
            [Tree "<MulBackward0 object at 0x9>"
               [Tree "<AccumulateGrad object at 0x3>" []];
             Tree "<AccumulateGrad object at 0x6>" []]]]]) 0).
  apply (unfold_tree_sound 6). vm_compute. reflexivity.
Defined.

(** [print_grad_graph_no_provenance] on the untracked input [x]. *)
Lemma print_grad_graph_no_provenance_witness :
  print_grad_graph 1 7 0 loss_world = (Returned tt, loss_world).
Proof.
  apply (print_grad_graph_no_provenance 0 7 0 loss_world
           (PyObj "tensor(...)" (Some None) None false None None)).
  - reflexivity.
  - right. reflexivity.
  - reflexivity.
Defined.

(** [print_grad_graph_terminates] on the loss of the last cell. *)
Lemma print_grad_graph_terminates_witness :
  ∃ fuel0, ∀ fuel, (fuel0 ≤ fuel)%nat →
    (print_grad_graph fuel 18 0 loss_world).1 ≠ OutOfFuel ∧
    print_grad_graph fuel 18 0 loss_world
    = print_grad_graph fuel0 18 0 loss_world.
Proof.
  apply (print_grad_graph_terminates loss_world 18 0).
  apply (ranked_acyclic Pos.to_nat). vm_compute. reflexivity.
Defined.

(** The shared leaf marker is printed once per link that leads to it. *)
Example square_shared :
  (cell_square init_world).1 = Returned 5%positive ∧
  backward_node (heap square_world) 4 "MulBackward0"
    [(Some 3%positive, 0); (Some 3%positive, 0)] ∧
  print_grad_graph 2 5 0 square_world
  = (Returned tt,
     printed square_world
       ["<MulBackward0 object at 0x4>";
        "    <AccumulateGrad object at 0x3>";
        "    <AccumulateGrad object at 0x3>"]).
Proof.
  split; [reflexivity|]. split; [by_lookup|]. vm_compute. reflexivity.
Qed.

(** [print_grad_graph_one_line_per_path] on the product of a leaf with
    itself. *)
Lemma print_grad_graph_one_line_per_path_witness :
  ∃ fuel0 ps,
    NoDup ps ∧
    (∀ p, p ∈ ps ↔ is_Some (follow (heap square_world) 4 p)) ∧
    ∀ fuel, (fuel0 ≤ fuel)%nat → ∀ w, heap w = heap square_world →
      print_grad_graph fuel 5 0 w
      = (Returned tt,
         printed w (map (path_line (heap square_world) 4 0) ps)).
Proof.
  apply (print_grad_graph_one_line_per_path (heap square_world) 5
    (PyObj "tensor(...)" (Some (Some 4%positive)) None true None None)
    (PyObj "<MulBackward0 object at 0x4>" None
       (Some [(Some 3%positive, 0); (Some 3%positive, 0)]) false None None) 0).
  - apply provenance_graphb_sound. vm_compute. reflexivity.
  - apply (ranked_acyclic Pos.to_nat). vm_compute. reflexivity.
  - reflexivity.
  - reflexivity.
  - reflexivity.
Defined.

(** * Part IV: further properties of the code *)

(** ** One step of the inspector *)

Lemma visit_node_step fuel h a i o fs :
  h !! a = Some o → is_node o = true → next_functions o = Some fs →
  visit (S fuel) h a i
  = (let '(r, ls) := visit_links (visit fuel h) fs (i + 4) in
     (r, (str_mul " " i +:+ py_str o) :: ls)).
Proof.
  intros Ho Hn Hfs. simpl. rewrite Ho. unfold is_node in Hn.
  destruct (grad_fn o) as [[g|]|]; [done| |]; by rewrite Hfs.
Qed.

Lemma visit_entry fuel h v i o on :
  h !! v = Some o → h !! entry o v = Some on → is_node on = true →
  visit fuel h v i = visit fuel h (entry o v) i.
Proof.
  intros Ho Hon Hnode. destruct fuel as [|fuel]; [done|].
  unfold entry in *. simpl. rewrite Ho.
  destruct (grad_fn o) as [[g|]|] eqn:Hg; [|by rewrite Ho, Hg..].
  rewrite Hon. unfold is_node in Hnode.
  destruct (grad_fn on) as [[g'|]|]; [done| |];
    by destruct (next_functions on).
Qed.

(** X1.  When [grad_fn] is populated with an object that has no
    [next_functions], the call prints that object's line and then raises
    [AttributeError]: only the second branch guards the attribute with
    [hasattr].  This holds whether or not [tensor] itself has
    [next_functions]. *)
Theorem print_grad_graph_linkless_grad_fn (fuel : nat) (tensor : addr)
    (indent : Z) (w : world) (o og : pyobj) (g : addr) :
  heap w !! tensor = Some o →
  grad_fn o = Some (Some g) →
  heap w !! g = Some og →
  next_functions og = None →
  print_grad_graph (S fuel) tensor indent w
  = (Raised AttributeError, printed w [str_mul " " indent +:+ py_str og]).
Proof.
  intros Ho Hg Hog Hn. rewrite print_grad_graph_visit. simpl.
  by rewrite Ho, Hg, Hog, Hn.
Qed.

(** X2.  A call on a value whose [grad_fn] is a backward node is the call
    on that node: [print_grad_graph(t)] and [print_grad_graph(t.grad_fn)]
    end alike and print the same lines. *)
Theorem print_grad_graph_via_grad_fn (fuel : nat) (tensor : addr)
    (indent : Z) (w : world) (o og : pyobj) (g : addr) :
  heap w !! tensor = Some o →
  grad_fn o = Some (Some g) →
  heap w !! g = Some og →
  is_node og = true →
  print_grad_graph fuel tensor indent w = print_grad_graph fuel g indent w.
Proof.
  intros Ho Hg Hog Hnode. rewrite !print_grad_graph_visit.
  assert (He : entry o tensor = g) by (unfold entry; by rewrite Hg).
  rewrite (visit_entry fuel (heap w) tensor indent o og Ho);
    rewrite ?He; done.
Qed.

Lemma visit_links_all_null rec fs i :
  Forall (λ l : link, l.1 = None) fs → visit_links rec fs i = (Returned tt, []).
Proof.
  induction 1 as [|[f k] fs Hf _ IH]; [done|].
  simpl in Hf. subst f. done.
Qed.

(** X3.  A node none of whose links is populated (no links at all, or null
    links only) is printed on one line and the call returns, with one unit
    of fuel whatever else the store holds. *)
Theorem print_grad_graph_no_links (fuel : nat) (v : addr) (indent : Z)
    (w : world) (o on : pyobj) (fs : list link) :
  heap w !! v = Some o →
  heap w !! entry o v = Some on →
  next_functions on = Some fs →
  Forall (λ l : link, l.1 = None) fs →
  print_grad_graph (S fuel) v indent w
  = (Returned tt, printed w [str_mul " " indent +:+ py_str on]).
Proof.
  intros Ho Hon Hfs Hnull. rewrite print_grad_graph_visit. simpl.
  rewrite Ho. unfold entry in Hon.
  destruct (grad_fn o) as [[g|]|]; simplify_eq; rewrite ?Hon, Hfs;
    by rewrite visit_links_all_null.
Qed.

(** ** No failure on provenance graphs *)

Lemma visit_links_outcome rec fs i :
  (∀ f k, (Some f, k) ∈ fs →
     (rec f i).1 = Returned tt ∨ (rec f i).1 = OutOfFuel) →
  (visit_links rec fs i).1 = Returned tt ∨
  (visit_links rec fs i).1 = OutOfFuel.
Proof.
  induction fs as [|[[f|] k] fs IH]; intros Hrec; simpl; [by left| |].
  - destruct (Hrec f k ltac:(left)) as [Hf|Hf];
      destruct (rec f i) as [[[]| | |] ls]; simplify_eq/=; [|by right].
    destruct IH as [Hl|Hl];
      [intros f' k' Hin; apply (Hrec f' k'); by right| |];
      destruct (visit_links rec fs i) as [r ls']; simplify_eq/=; auto.
  - apply IH. intros f' k' Hin. apply (Hrec f' k'). by right.
Qed.

Lemma visit_node_outcome h :
  provenance_graph h →
  ∀ fuel a o i, h !! a = Some o → is_node o = true →
    (visit fuel h a i).1 = Returned tt ∨ (visit fuel h a i).1 = OutOfFuel.
Proof.
  intros Hpg. induction fuel as [|fuel IH]; intros a o i Ho Hnode;
    [by right|].
  destruct (is_node_next_functions o Hnode) as [fs Hfs].
  rewrite (visit_node_step fuel h a i o fs Ho Hnode Hfs).
  destruct (visit_links_outcome (visit fuel h) fs (i + 4)) as [Hl|Hl].
  - intros f k Hin. destruct (Hpg a o fs f k Ho Hfs Hin) as (o' & Ho' & Hn').
    by apply (IH f o').
  - left. by destruct (visit_links (visit fuel h) fs (i + 4)).
  - right. by destruct (visit_links (visit fuel h) fs (i + 4)).
Qed.

(** X4.  On a provenance graph (every populated link leads to a backward
    node) a call from a node, or from a tensor whose [grad_fn] is one,
    never raises and never meets a missing object: with any fuel it either
    returns or is cut short by the fuel alone. *)
Theorem print_grad_graph_never_fails (fuel : nat) (v : addr) (indent : Z)
    (w : world) (o on : pyobj) :
  provenance_graph (heap w) →
  heap w !! v = Some o →
  heap w !! entry o v = Some on →
  is_node on = true →
  (print_grad_graph fuel v indent w).1 = Returned tt ∨
  (print_grad_graph fuel v indent w).1 = OutOfFuel.
Proof.
  intros Hpg Ho Hon Hnode. rewrite print_grad_graph_visit. simpl.
  rewrite (visit_entry fuel (heap w) v indent o on Ho Hon Hnode).
  by apply (visit_node_outcome (heap w) Hpg fuel (entry o v) on).
Qed.

(** ** The output depends on the reachable objects only *)

Lemma visit_links_subseteq rec1 rec2 fs i :
  (∀ f, (rec1 f i).1 ≠ Stuck → rec2 f i = rec1 f i) →
  (visit_links rec1 fs i).1 ≠ Stuck →
  visit_links rec2 fs i = visit_links rec1 fs i.
Proof.
  intros Hrec. induction fs as [|[[f|] k] fs IH]; simpl; [done| |done].
  destruct (rec1 f i) as [r ls] eqn:Hf. intros Hne.
  rewrite (Hrec f), Hf; [|rewrite Hf; by destruct r as [[]| | |]].
  destruct r as [[]| | |]; try done.
  rewrite IH; [done|]. by destruct (visit_links rec1 fs i).
Qed.

Lemma visit_subseteq fuel (h h' : gmap addr pyobj) v i :
  h ⊆ h' → (visit fuel h v i).1 ≠ Stuck → visit fuel h' v i = visit fuel h v i.
Proof.
  intros Hsub. revert v i. induction fuel as [|fuel IH]; intros v i; [done|].
  simpl.
  assert (Hloop : ∀ fs, (visit_links (visit fuel h) fs (i + 4)).1 ≠ Stuck →
    visit_links (visit fuel h') fs (i + 4)
    = visit_links (visit fuel h) fs (i + 4)).
  { intros fs. apply visit_links_subseteq. intros f. apply IH. }
  destruct (h !! v) as [o|] eqn:Ho; [|done].
  rewrite (lookup_weaken h h' v o Ho Hsub).
  destruct (grad_fn o) as [[g|]|].
  - destruct (h !! g) as [og|] eqn:Hog; [|done].
    rewrite (lookup_weaken h h' g og Hog Hsub).
    destruct (next_functions og) as [fs|]; [|done].
    intros Hne. rewrite Hloop; [done|].
    by destruct (visit_links (visit fuel h) fs (i + 4)).
  - destruct (next_functions o) as [fs|]; [|done].
    intros Hne. rewrite Hloop; [done|].
    by destruct (visit_links (visit fuel h) fs (i + 4)).
  - destruct (next_functions o) as [fs|]; [|done].
    intros Hne. rewrite Hloop; [done|].
    by destruct (visit_links (visit fuel h) fs (i + 4)).
Qed.

(** X5.  Objects the call does not reach do not matter: when every object
    of [w] is in [w'] unchanged and the call in [w] meets no missing
    object, the call in [w'] ends the same way and prints the same lines. *)
Theorem print_grad_graph_store_extension (fuel : nat) (tensor : addr)
    (indent : Z) (w w' : world) :
  heap w ⊆ heap w' →
  (print_grad_graph fuel tensor indent w).1 ≠ Stuck →
  ∃ r ls,
    print_grad_graph fuel tensor indent w = (r, printed w ls) ∧
    print_grad_graph fuel tensor indent w' = (r, printed w' ls).
Proof.
  intros Hsub. rewrite !print_grad_graph_visit. simpl. intros Hne.
  exists (visit fuel (heap w) tensor indent).1,
         (visit fuel (heap w) tensor indent).2.
  split; [done|]. by rewrite (visit_subseteq fuel (heap w) (heap w')).
Qed.

(** ** Shared nodes multiply the output *)

Lemma visit_tower h k :
  ∀ a, tower h k a →
  ∀ fuel, (k < fuel)%nat → ∀ i,
    ∃ ls, visit fuel h a i = (Returned tt, ls) ∧
          length ls = (2 ^ S k - 1)%nat.
Proof.
  induction k as [|k IH]; intros a Ha [|fuel] Hfuel i; try lia.
  - destruct Ha as (o & Ho & Hnode & Hfs).
    rewrite (visit_node_step fuel h a i o [] Ho Hnode Hfs). simpl.
    by eexists.
  - destruct Ha as (o & b & i1 & i2 & Ho & Hnode & Hfs & Hb).
    rewrite (visit_node_step fuel h a i o _ Ho Hnode Hfs). simpl.
    destruct (IH b Hb fuel ltac:(lia) (i + 4)) as (ls & -> & Hlen).
    eexists. split; [done|]. simpl. rewrite !length_app, Hlen. simpl.
    assert (1 ≤ 2 ^ k)%nat by (apply Nat.neq_0_lt_0, Nat.pow_nonzero; lia).
    lia.
Qed.

(** X6.  Nothing records the nodes already visited, so sharing is paid for
    in output: over a tower of [k] levels in which both links of each node
    lead to the same node below, a call prints [2 ^ (k + 1) - 1] lines for
    [k + 1] nodes. *)
Theorem print_grad_graph_tower_lines (h : gmap addr pyobj) (k : nat)
    (a : addr) (fuel : nat) (indent : Z) (w : world) :
  tower h k a → (k < fuel)%nat → heap w = h →
  ∃ ls,
    print_grad_graph fuel a indent w = (Returned tt, printed w ls) ∧
    length ls = (2 ^ (k + 1) - 1)%nat.
Proof.
  intros Ha Hfuel <-. rewrite print_grad_graph_visit.
  destruct (visit_tower (heap w) k a Ha fuel Hfuel indent) as (ls & -> & Hlen).
  exists ls. split; [done|]. by rewrite Nat.add_1_r.
Qed.

(** ** Building the model and calling it again *)

Lemma extends_refl w : extends w w.
Proof. by intros a o. Qed.

Lemma extends_leaf w w' t edge :
  extends w w' → leaf (heap w) t edge → leaf (heap w') t edge.
Proof.
  intros Hext (o & Ho & Hg & He). exists o. split; [by apply Hext|].
  split; [done|]. destruct edge as [acc|]; [|done].
  destruct He as (Hr & Ha & Hm). repeat split; [done..|].
  by eapply extends_leaf_marker.
Qed.

Lemma fresh_from_next w : fresh_from w → heap w !! next_addr w = None.
Proof. intros Hfresh. apply Hfresh. lia. Qed.

(** A new leaf: one object when it is untracked, the tensor and its
    marker when it is tracked. *)
Lemma leaf_tensor_run (rg : bool) w :
  fresh_from w →
  ∃ t w',
    torch.leaf_tensor rg w = (Returned t, w') ∧
    fresh_from w' ∧ extends w w' ∧ heap w !! t = None ∧
    if rg then heap w !! Pos.succ t = None ∧ leaf (heap w') t (Some (Pos.succ t))
    else leaf (heap w') t None.
Proof.
  intros Hfresh. set (n := next_addr w).
  assert (Hlt : ∀ a o, heap w !! a = Some o → (a < n)%positive)
    by (intros a o; by apply fresh_from_lookup).
  destruct rg; eexists _, _; (split; [reflexivity|]); simpl; fold n.
  - split; [|split; [|split; [|split]]].
    + intros a Ha. simpl in *. rewrite !lookup_insert_ne by lia.
      apply Hfresh. fold n. lia.
    + intros a o Ha. simpl. apply Hlt in Ha as Hla.
      by rewrite !lookup_insert_ne by lia.
    + by apply fresh_from_next.
    + apply Hfresh. fold n. lia.
    + eexists. split;
        [rewrite lookup_insert_ne by lia; by rewrite lookup_insert_eq|].
      split; [done|]. split; [done|]. split; [done|].
      eexists. split; [by rewrite lookup_insert_eq|]. by repeat split.
  - split; [|split; [|split]].
    + intros a Ha. simpl in *. rewrite !lookup_insert_ne by lia.
      apply Hfresh. fold n. lia.
    + intros a o Ha. simpl. apply Hlt in Ha as Hla.
      by rewrite !lookup_insert_ne by lia.
    + by apply fresh_from_next.
    + eexists. split; [by rewrite lookup_insert_eq|]. by split.
Qed.

Lemma nn_Parameter_run data (rg : bool) w o :
  heap w !! data = Some o →
  torch.nn_Parameter data rg w = torch.leaf_tensor rg w.
Proof.
  intros Ho. unfold torch.nn_Parameter.
  unfold mbind at 1, M_bind at 1, bind at 1, deref. by rewrite Ho.
Qed.

Lemma leaf_lookup h t edge : leaf h t edge → is_Some (h !! t).
Proof. intros (o & Ho & _). by exists o. Qed.

Lemma leaf_marker_lookup h a t : leaf_marker h a t → is_Some (h !! a).
Proof. intros (o & Ho & _). by exists o. Qed.

(** [__init__] allocates two data tensors and two tracked parameters. *)
Lemma LinearRegressionModel_init_run w :
  fresh_from w →
  ∃ m w' acc_w acc_b,
    LinearRegressionModel_init w = (Returned m, w') ∧
    fresh_from w' ∧ extends w w' ∧
    leaf (heap w') (weights m) (Some acc_w) ∧
    leaf (heap w') (bias m) (Some acc_b) ∧
    weights m ≠ bias m ∧ acc_w ≠ acc_b ∧
    heap w !! weights m = None ∧ heap w !! bias m = None.
Proof.
  intros Hfresh.
  destruct (leaf_tensor_run false w Hfresh)
    as (d & w1 & Hrun1 & Hfresh1 & Hext1 & _ & Hd).
  destruct (leaf_tensor_run true w1 Hfresh1)
    as (p & w2 & Hrun2 & Hfresh2 & Hext2 & Hp & _ & Hlp).
  destruct (leaf_tensor_run false w2 Hfresh2)
    as (d' & w3 & Hrun3 & Hfresh3 & Hext3 & _ & Hd').
  destruct (leaf_tensor_run true w3 Hfresh3)
    as (b & w4 & Hrun4 & Hfresh4 & Hext4 & Hb & Hsb & Hlb).
  destruct (leaf_lookup _ _ _ Hd) as [od Hod].
  destruct (leaf_lookup _ _ _ Hd') as [od' Hod'].
  exists {| weights := p; bias := b |}, w4, (Pos.succ p), (Pos.succ b).
  simpl. split; [|split; [done|split; [|split; [|split; [done|]]]]].
  - unfold LinearRegressionModel_init, torch.randn.
    unfold mbind at 1, M_bind at 1, bind at 1. rewrite Hrun1.
    unfold mbind at 1, M_bind at 1, bind at 1.
    rewrite (nn_Parameter_run d true w1 od Hod), Hrun2.
    unfold mbind at 1, M_bind at 1, bind at 1. rewrite Hrun3.
    unfold mbind at 1, M_bind at 1, bind at 1.
    by rewrite (nn_Parameter_run d' true w3 od' Hod'), Hrun4.
  - eapply extends_trans; [done|]. eapply extends_trans; [done|].
    by eapply extends_trans.
  - apply (extends_leaf w2 w4); [by eapply extends_trans|done].
  - assert (Hp3 : is_Some (heap w3 !! p))
      by (destruct (leaf_lookup _ _ _ Hlp) as [? ?]; eexists; by apply Hext3).
    assert (Hsp3 : is_Some (heap w3 !! Pos.succ p)).
    { destruct Hlp as (_ & _ & _ & _ & _ & Hm).
      destruct (leaf_marker_lookup _ _ _ Hm) as [? ?].
      eexists; by apply Hext3. }
    split; [intros ->; rewrite Hb in Hp3; by destruct Hp3|].
    split; [intros Heq; rewrite Heq, Hsb in Hsp3; by destruct Hsp3|].
    split.
    + destruct (heap w !! p) as [o|] eqn:Ho; [|done].
      apply Hext1 in Ho. by rewrite Hp in Ho.
    + destruct (heap w !! b) as [o|] eqn:Ho; [|done].
      apply Hext1, Hext2, Hext3 in Ho. by rewrite Hb in Ho.
Qed.

(** X7.  Building the model yields two distinct parameters, both new and
    both tracked leaves with leaf markers of their own, and changes no
    object that existed: exactly what [forward] asks of its model. *)
Theorem LinearRegressionModel_init_leaves (w : world) :
  fresh_from w →
  ∃ m w' acc_w acc_b,
    LinearRegressionModel_init w = (Returned m, w') ∧
    fresh_from w' ∧ extends w w' ∧
    leaf (heap w') (weights m) (Some acc_w) ∧
    leaf (heap w') (bias m) (Some acc_b) ∧
    weights m ≠ bias m ∧ acc_w ≠ acc_b ∧
    heap w !! weights m = None ∧ heap w !! bias m = None.
Proof.
  intros Hfresh.
  destruct (LinearRegressionModel_init_run w Hfresh)
    as (m & w' & acc_w & acc_b & Hrun & Hrest).
  by exists m, w', acc_w, acc_b.
Qed.

(** [forward], with the identities of what it records: the two nodes are
    new objects. *)
Lemma forward_run_new (w : world) (self : LinearRegressionModel)
    (x acc_w acc_b : addr) (x_edge : option addr) :
  fresh_from w →
  leaf (heap w) (weights self) (Some acc_w) →
  leaf (heap w) (bias self) (Some acc_b) →
  leaf (heap w) x x_edge →
  ∃ y w' add_n mul_n,
    forward self x w = (Returned y, w') ∧
    fresh_from w' ∧ extends w w' ∧
    result_of (heap w') y add_n ∧
    backward_node (heap w') add_n "AddBackward0"
      [(Some mul_n, 0); (Some acc_b, 0)] ∧
    backward_node (heap w') mul_n "MulBackward0"
      [(Some acc_w, 0); (x_edge, 0)] ∧
    heap w !! add_n = None ∧ heap w !! mul_n = None ∧ add_n ≠ mul_n.
Proof.
  intros Hfresh Hw Hb Hx.
  pose proof Hw as (ow & How & _ & Hrw & _).
  pose proof Hb as (ob & Hob & _).
  pose proof Hx as (ox & Hox & _).
  destruct (apply_op_tracked "MulBackward0" [weights self; x] [ow; ox] w)
    as (wx & w1 & Hrun1 & Hfresh1 & Hext1 & Hwx & Hmul);
    [done|by repeat constructor|by simpl; rewrite Hrw|].
  pose proof Hwx as (owx & Howx & _ & Hrwx).
  destruct (apply_op_tracked "AddBackward0" [wx; bias self] [owx; ob] w1)
    as (y & w2 & Hrun2 & Hfresh2 & Hext2 & Hy & Hadd);
    [done|repeat constructor; [done|by apply Hext1]|by simpl; rewrite Hrwx|].
  assert (Hnew : heap w !! next_addr w1 = None).
  { destruct (heap w !! next_addr w1) as [o|] eqn:Ho; [|done].
    apply Hext1 in Ho. by rewrite (fresh_from_next w1 Hfresh1) in Ho. }
  exists y, w2, (next_addr w1), (next_addr w).
  split; [|split; [done|split; [by eapply extends_trans|split; [done|]]]].
  { unfold forward, torch.mul, torch.add.
    unfold mbind at 1, M_bind at 1, bind at 1. by rewrite Hrun1. }
  split; [|split; [|split; [done|split; [by apply fresh_from_next|]]]].
  - simpl in Hadd.
    by rewrite (result_edge_of _ _ _ _ Hwx Howx),
      (leaf_edge_of _ _ _ _ Hb Hob) in Hadd.
  - apply (extends_backward_node w1 w2); [done|]. simpl in Hmul.
    by rewrite (leaf_edge_of _ _ _ _ Hw How),
      (leaf_edge_of _ _ _ _ Hx Hox) in Hmul.
  - intros Heq. destruct Hmul as (o & Ho & _). rewrite <- Heq in Ho.
    by rewrite (fresh_from_next w1 Hfresh1) in Ho.
Qed.

(** X8.  Calling the model twice, as the notebook does on [x] and on
    [x_with_grad], records two separate pairs of nodes that lead to the
    same two leaf markers: the weight's and the bias's markers are shared
    by every forward pass, and the first graph is left as it was. *)
Theorem forward_twice_shares_markers (w : world)
    (self : LinearRegressionModel) (x x' acc_w acc_b : addr)
    (x_edge x_edge' : option addr) :
  fresh_from w →
  leaf (heap w) (weights self) (Some acc_w) →
  leaf (heap w) (bias self) (Some acc_b) →
  leaf (heap w) x x_edge →
  leaf (heap w) x' x_edge' →
  ∃ y y' w' add_n mul_n add_n' mul_n',
    (y ← forward self x; y' ← forward self x'; mret (y, y')) w
    = (Returned (y, y'), w') ∧
    result_of (heap w') y add_n ∧
    backward_node (heap w') add_n "AddBackward0"
      [(Some mul_n, 0); (Some acc_b, 0)] ∧
    backward_node (heap w') mul_n "MulBackward0"
      [(Some acc_w, 0); (x_edge, 0)] ∧
    result_of (heap w') y' add_n' ∧
    backward_node (heap w') add_n' "AddBackward0"
      [(Some mul_n', 0); (Some acc_b, 0)] ∧
    backward_node (heap w') mul_n' "MulBackward0"
      [(Some acc_w, 0); (x_edge', 0)] ∧
    add_n ≠ add_n' ∧ mul_n ≠ mul_n' ∧ y ≠ y'.
Proof.
  intros Hfresh Hw Hb Hx Hx'.
  destruct (forward_run_new w self x acc_w acc_b x_edge Hfresh Hw Hb Hx)
    as (y & w1 & add_n & mul_n & Hrun1 & Hfresh1 & Hext1 & Hy & Hadd & Hmul & _).
  destruct (forward_run_new w1 self x' acc_w acc_b x_edge' Hfresh1)
    as (y' & w2 & add_n' & mul_n' & Hrun2 & Hfresh2 & Hext2 & Hy' & Hadd'
        & Hmul' & Hnew_add & Hnew_mul & _);
    [by eapply extends_leaf..|].
  exists y, y', w2, add_n, mul_n, add_n', mul_n'.
  split; [|split; [by eapply extends_result_of|]].
  { cbv [mbind M_bind bind mret M_ret ret]. by rewrite Hrun1, Hrun2. }
  split; [by eapply extends_backward_node|].
  split; [by eapply extends_backward_node|].
  split; [done|]. split; [done|]. split; [done|].
  split; [|split].
  - intros <-. destruct Hadd as (o & Ho & _). by rewrite Hnew_add in Ho.
  - intros <-. destruct Hmul as (o & Ho & _). by rewrite Hnew_mul in Ho.
  - intros <-. destruct Hy as (o & Ho & Hg & _).
    destruct Hy' as (o' & Ho' & Hg' & _). apply Hext2 in Ho.
    rewrite Ho in Ho'. simplify_eq.
    destruct Hadd as (oa & Hoa & _). by rewrite Hnew_add in Hoa.
Qed.

(** [L1Loss] records a subtraction, an absolute value and a mean. *)
Lemma L1Loss_run (w : world) (y_pred y_true pred_n : addr) :
  fresh_from w →
  result_of (heap w) y_pred pred_n →
  leaf (heap w) y_true None →
  ∃ loss w' mean_n abs_n sub_n,
    torch.L1Loss y_pred y_true w = (Returned loss, w') ∧
    fresh_from w' ∧ extends w w' ∧
    result_of (heap w') loss mean_n ∧
    backward_node (heap w') mean_n "MeanBackward0" [(Some abs_n, 0)] ∧
    backward_node (heap w') abs_n "AbsBackward0" [(Some sub_n, 0)] ∧
    backward_node (heap w') sub_n "SubBackward0"
      [(Some pred_n, 0); (None, 0)].
Proof.
  intros Hfresh Hy Ht.
  pose proof Hy as (oy & Hoy & Hgy & Hry).
  pose proof Ht as (ot & Hot & _).
  destruct (apply_op_tracked "SubBackward0" [y_pred; y_true] [oy; ot] w)
    as (d & w2 & Hrun2 & Hfresh2 & Hext2 & Hd & Hsub);
    [done|by repeat constructor|by simpl; rewrite Hry|].
  pose proof Hd as (od & Hod & _ & Hrd).
  destruct (apply_op_tracked "AbsBackward0" [d] [od] w2)
    as (a & w3 & Hrun3 & Hfresh3 & Hext3 & Ha & Habs);
    [done|by repeat constructor|by simpl; rewrite Hrd|].
  pose proof Ha as (oa & Hoa & _ & Hra).
  destruct (apply_op_tracked "MeanBackward0" [a] [oa] w3)
    as (l & w4 & Hrun4 & Hfresh4 & Hext4 & Hl & Hmean);
    [done|by repeat constructor|by simpl; rewrite Hra|].
  exists l, w4, (next_addr w3), (next_addr w2), (next_addr w).
  split; [|split; [done|split; [|split; [done|split; [|split]]]]].
  - unfold torch.L1Loss, torch.sub, torch.abs, torch.mean.
    cbv [mbind M_bind bind]. by rewrite Hrun2, Hrun3, Hrun4.
  - eapply extends_trans; [done|]. by eapply extends_trans.
  - simpl in Hmean. by rewrite (result_edge_of _ _ _ _ Ha Hoa) in Hmean.
  - apply (extends_backward_node w3 w4); [done|]. simpl in Habs.
    by rewrite (result_edge_of _ _ _ _ Hd Hod) in Habs.
  - apply (extends_backward_node w2 w4); [by eapply extends_trans|].
    simpl in Hsub.
    rewrite (result_edge_of _ _ _ _ Hy Hoy) in Hsub.
    by rewrite (leaf_edge_of (heap w) y_true None ot Ht Hot) in Hsub.
Qed.

(** ** The last cell from any store *)

Lemma visit_unfolds h v t :
  unfolds h v t →
  ∃ n, ∀ fuel, (n ≤ fuel)%nat → ∀ i,
    visit fuel h v i = (Returned tt, render i 0 t).
Proof.
  induction 1 as [v o on fs ts Ho Hon Hfs Hts] using unfolds_ind'.
  destruct (visit_links_render h fs ts Hts) as [n Hn].
  exists (S n). intros [|fuel] Hfuel i; [lia|].
  assert (Hrender : render i 0 (Tree (py_str on) ts)
    = (str_mul " " i +:+ py_str on) :: flat_map (render (i + 4) 0) ts).
  { simpl. f_equal; [do 2 f_equal; lia|].
    clear. induction ts as [|t ts IH]; simpl; [done|].
    by rewrite render_shift, IH. }
  rewrite Hrender. simpl. rewrite Ho. unfold entry in Hon.
  destruct (grad_fn o) as [[g|]|]; simplify_eq; rewrite ?Hon, Hfs; simpl;
    by rewrite Hn by lia.
Qed.

Lemma unfolds_backward_node h a name fs ts :
  backward_node h a name fs →
  Forall2 (unfolds h) (omap fst fs) ts →
  unfolds h a (Tree (torch.node_str name a) ts).
Proof.
  intros (o & Ho & <- & Hg & Hfs) Hts.
  apply (unfolds_node h a o o fs ts); try done.
  unfold entry. by rewrite Hg.
Qed.

Lemma unfolds_leaf_marker h a t :
  leaf_marker h a t →
  unfolds h a (Tree (torch.node_str "AccumulateGrad" a) []).
Proof.
  intros (o & Ho & Hs & Hg & Hfs & _).
  apply (unfolds_backward_node h a "AccumulateGrad" []); [by exists o|].
  constructor.
Qed.

Lemma unfolds_result_of h y n name fs ts :
  result_of h y n →
  backward_node h n name fs →
  Forall2 (unfolds h) (omap fst fs) ts →
  unfolds h y (Tree (torch.node_str name n) ts).
Proof.
  intros (o & Ho & Hg & _) (on & Hon & <- & _ & Hfs) Hts.
  apply (unfolds_node h y o on fs ts); try done.
  unfold entry. by rewrite Hg.
Qed.

(** X9.  From any store with fresh identities, the last cell builds its
    model, inputs and loss, and the inspector called on the loss prints
    seven lines: the mean, absolute-value, subtraction, add and multiply
    nodes, each four spaces deeper than the one before, then the weight's
    leaf marker one level deeper and the bias's leaf marker at the level of
    the multiply-node.  Nothing is printed for the untracked [x] and
    [y_true]. *)
Theorem cell_loss_output (w : world) :
  fresh_from w →
  ∃ m loss w' mean_n abs_n sub_n add_n mul_n acc_w acc_b fuel0,
    cell_loss w = (Returned (m, loss), w') ∧
    leaf_marker (heap w') acc_w (weights m) ∧
    leaf_marker (heap w') acc_b (bias m) ∧
    ∀ fuel, (fuel0 ≤ fuel)%nat →
      print_grad_graph fuel loss 0 w'
      = (Returned tt,
         printed w'
           [torch.node_str "MeanBackward0" mean_n;
            "    " +:+ torch.node_str "AbsBackward0" abs_n;
            "        " +:+ torch.node_str "SubBackward0" sub_n;
            "            " +:+ torch.node_str "AddBackward0" add_n;
            "                " +:+ torch.node_str "MulBackward0" mul_n;
            "                    " +:+ torch.node_str "AccumulateGrad" acc_w;
            "                " +:+ torch.node_str "AccumulateGrad" acc_b]).
Proof.
  intros Hfresh.
  destruct (LinearRegressionModel_init_run w Hfresh)
    as (m & w1 & acc_w & acc_b & Hrun1 & Hfresh1 & _ & Hlw & Hlb & _).
  destruct (leaf_tensor_run false w1 Hfresh1)
    as (x & w2 & Hrun2 & Hfresh2 & Hext2 & _ & Hx).
  destruct (leaf_tensor_run false w2 Hfresh2)
    as (yt & w3 & Hrun3 & Hfresh3 & Hext3 & _ & Hyt).
  assert (Hext13 : extends w1 w3) by by eapply extends_trans.
  destruct (forward_run w3 m x acc_w acc_b None Hfresh3)
    as (y & w4 & add_n & mul_n & Hrun4 & Hfresh4 & Hext4 & Hy & Hadd & Hmul);
    [by apply (extends_leaf w1 w3)..|by apply (extends_leaf w2 w3)|].
  destruct (L1Loss_run w4 y yt add_n Hfresh4 Hy)
    as (l & w5 & mean_n & abs_n & sub_n & Hrun5 & _ & Hext5 & Hl & Hmean
        & Habs & Hsub); [by apply (extends_leaf w3 w4)|].
  assert (Hext15 : extends w1 w5).
  { eapply extends_trans; [done|]. by eapply extends_trans. }
  assert (Hmw : leaf_marker (heap w5) acc_w (weights m)).
  { destruct Hlw as (_ & _ & _ & _ & _ & Hm).
    by eapply extends_leaf_marker. }
  assert (Hmb : leaf_marker (heap w5) acc_b (bias m)).
  { destruct Hlb as (_ & _ & _ & _ & _ & Hm).
    by eapply extends_leaf_marker. }
  assert (Ht : unfolds (heap w5) l
    (Tree (torch.node_str "MeanBackward0" mean_n)
      [Tree (torch.node_str "AbsBackward0" abs_n)
        [Tree (torch.node_str "SubBackward0" sub_n)
          [Tree (torch.node_str "AddBackward0" add_n)
            [Tree (torch.node_str "MulBackward0" mul_n)
               [Tree (torch.node_str "AccumulateGrad" acc_w) []];
             Tree (torch.node_str "AccumulateGrad" acc_b) []]]]])).
  { apply (extends_backward_node w4 w5 _ _ _ Hext5) in Hadd, Hmul.
    eapply unfolds_result_of; [exact Hl|exact Hmean|]. repeat constructor.
    eapply unfolds_backward_node; [exact Habs|]. repeat constructor.
    eapply unfolds_backward_node; [exact Hsub|]. repeat constructor.
    eapply unfolds_backward_node; [exact Hadd|]. repeat constructor.
    - eapply unfolds_backward_node; [exact Hmul|].
      repeat constructor. by eapply unfolds_leaf_marker.
    - by eapply unfolds_leaf_marker. }
  destruct (visit_unfolds _ _ _ Ht) as [n Hn].
  exists m, l, w5, mean_n, abs_n, sub_n, add_n, mul_n, acc_w, acc_b, n.
  split; [|split; [done|split; [done|]]].
  - unfold cell_loss, torch.randn. cbv [mbind M_bind bind mret M_ret ret].
    by rewrite Hrun1, Hrun2, Hrun3, Hrun4, Hrun5.
  - intros fuel Hfuel. rewrite print_grad_graph_visit, Hn by done.
    reflexivity.
Qed.

(** ** Multiplying by an all-ones matrix *)

Lemma wrap32_in_range z : in_int32 z → torch_int.wrap32 z = z.
Proof.
  unfold in_int32, torch_int.wrap32. intros Hz.
  rewrite Z.mod_small by lia. lia.
Qed.

Lemma shape_cons_inv row rows r c :
  torch_int.shape (row :: rows) = Some (r, c) →
  r = S (length rows) ∧ c = length row ∧ Forall (λ x, length x = c) rows.
Proof.
  simpl. destruct (forallb _ rows) eqn:Hall; [|done]. intros [= <- <-].
  repeat split. rewrite forallb_forall in Hall. apply Forall_forall.
  intros x Hx. by apply Nat.eqb_eq, Hall, list_elem_of_In.
Qed.

Lemma shape_ones r c :
  (0 < r)%nat → torch_int.shape (torch_int.ones r c) = Some (r, c).
Proof.
  destruct r as [|r]; [lia|]. intros _. unfold torch_int.ones. simpl.
  rewrite !repeat_length.
  replace (forallb _ (repeat (repeat 1 c) r)) with true; [done|].
  symmetry. apply forallb_forall. intros x Hx%repeat_spec. subst x.
  rewrite repeat_length. apply Nat.eqb_refl.
Qed.

Lemma zip_with_ones_row (row : list Z) :
  Forall in_int32 row →
  zip_with (λ x y, torch_int.wrap32 (x * y)) row (repeat 1 (length row)) = row.
Proof.
  induction 1 as [|x row Hx _ IH]; [done|]. simpl.
  by rewrite IH, Z.mul_1_r, wrap32_in_range.
Qed.

(** X10.  Elementwise multiplication by the all-ones matrix of the same
    shape gives the matrix back, for every matrix of [int32] entries: the
    first result of the notebook is no accident of its numbers. *)
Theorem mul_ones (a : list (list Z)) (r c : nat) :
  torch_int.shape a = Some (r, c) →
  Forall (Forall in_int32) a →
  torch_int.mul a (torch_int.ones r c) = Some a.
Proof.
  intros Hshape Hrange. unfold torch_int.mul. rewrite Hshape.
  destruct a as [|row rows].
  { simpl in Hshape. injection Hshape as <- <-. done. }
  destruct (shape_cons_inv row rows r c Hshape) as (-> & -> & Hlen).
  rewrite shape_ones by lia. rewrite decide_True by done. f_equal.
  unfold torch_int.ones.
  assert (Hrows : ∀ n (l : list (list Z)),
    Forall (λ x, length x = length row) l → Forall (Forall in_int32) l →
    length l = n →
    zip_with (zip_with (λ x y, torch_int.wrap32 (x * y))) l
      (repeat (repeat 1 (length row)) n) = l).
  { intros n l Hl Hr. revert n.
    induction l as [|x l IH]; intros n Hn; [by destruct n|].
    destruct n as [|n]; [done|]. simpl in *.
    apply Forall_cons in Hl as [Hx Hl]. apply Forall_cons in Hr as [Hrx Hr].
    rewrite (IH Hl Hr n) by lia. rewrite <- Hx.
    by rewrite zip_with_ones_row. }
  apply Hrows; [by constructor|done|done].
Qed.

Lemma nth_repeat_ones j m : (j < m)%nat → nth j (repeat 1 m) 0 = 1.
Proof.
  revert j. induction m as [|m IHm]; intros j Hj; [lia|].
  destruct j as [|j]; [done|]. simpl. apply IHm. lia.
Qed.

Lemma column_ones j k m :
  (j < m)%nat → torch_int.column j (torch_int.ones k m) = repeat 1 k.
Proof.
  intros Hj. unfold torch_int.column, torch_int.ones.
  induction k as [|k IH]; [done|]. simpl.
  by rewrite IH, nth_repeat_ones.
Qed.

Lemma dot_ones (row : list Z) :
  torch_int.dot row (repeat 1 (length row)) = row_sum row.
Proof.
  unfold torch_int.dot, row_sum.
  induction row as [|x row IH]; [done|]. simpl. rewrite IH. lia.
Qed.

(** X11.  The matrix product with an all-ones matrix of [m] columns puts
    in every entry of a row the (wrapped) sum of that row of the left
    operand: [[3,3],[7,7]] are the row sums of [mat1]. *)
Theorem mm_ones (a : list (list Z)) (r k m : nat) :
  torch_int.shape a = Some (r, k) → (0 < k)%nat →
  torch_int.mm a (torch_int.ones k m)
  = Some (map (λ row, repeat (torch_int.wrap32 (row_sum row)) m) a).
Proof.
  intros Hshape Hk. unfold torch_int.mm. rewrite Hshape, shape_ones by done.
  rewrite decide_True by done. f_equal.
  assert (Hlen : Forall (λ x, length x = k) a).
  { destruct a as [|row rows].
    - simpl in Hshape. injection Hshape as <- <-. lia.
    - destruct (shape_cons_inv row rows r k Hshape) as (_ & -> & Hl).
      by constructor. }
  clear Hshape. induction Hlen as [|row rows Hrow _ IH]; [done|].
  simpl. rewrite IH. f_equal.
  assert (Hcols : ∀ n, (n ≤ m)%nat →
    map (λ j, torch_int.wrap32
                (torch_int.dot row (torch_int.column j (torch_int.ones k m))))
      (seq (m - n) n)
    = repeat (torch_int.wrap32 (row_sum row)) n).
  { induction n as [|n IHn]; intros Hn; [done|].
    replace (m - S n)%nat with (m - n - 1)%nat by lia. simpl.
    replace (S (m - n - 1)) with (m - n)%nat by lia.
    rewrite IHn by lia. rewrite column_ones by lia.
    by rewrite <- Hrow, dot_ones. }
  specialize (Hcols m). rewrite Nat.sub_diag in Hcols. by apply Hcols.
Qed.

(** ** The further properties at concrete inputs *)

(** [print_grad_graph_linkless_grad_fn] on an object whose [grad_fn] is a
    plain object. *)
Lemma print_grad_graph_linkless_grad_fn_witness :
  print_grad_graph 1 2 0 linkless_world
  = (Raised AttributeError, printed linkless_world ["5"]).
Proof.
  apply (print_grad_graph_linkless_grad_fn 0 2 0 linkless_world
           (PyObj "t" (Some (Some 1%positive)) None false None None)
           (plain_object "5") 1); reflexivity.
Defined.

(** [print_grad_graph_via_grad_fn] on the loss of the last cell and its
    mean-node. *)
Lemma print_grad_graph_via_grad_fn_witness :
  print_grad_graph 6 18 0 loss_world = print_grad_graph 6 17 0 loss_world.
Proof.
  apply (print_grad_graph_via_grad_fn 6 18 0 loss_world
           (PyObj "tensor(...)" (Some (Some 17%positive)) None true None None)
           (PyObj "<MeanBackward0 object at 0x11>" None
              (Some [(Some 15%positive, 0)]) false None None) 17);
    reflexivity.
Defined.

(** [print_grad_graph_no_links] on the weight's leaf marker. *)
Lemma print_grad_graph_no_links_witness :
  print_grad_graph 1 3 8 loss_world
  = (Returned tt,
     printed loss_world ["        <AccumulateGrad object at 0x3>"]).
Proof.
  apply (print_grad_graph_no_links 0 3 8 loss_world
           (PyObj "<AccumulateGrad object at 0x3>" None (Some []) false
              (Some 2%positive) None)
           (PyObj "<AccumulateGrad object at 0x3>" None (Some []) false
              (Some 2%positive) None) []);
    [reflexivity..|constructor].
Defined.

(** [print_grad_graph_never_fails] on the loss of the last cell, with too
    little fuel. *)
Lemma print_grad_graph_never_fails_witness :
  (print_grad_graph 3 18 0 loss_world).1 = Returned tt ∨
  (print_grad_graph 3 18 0 loss_world).1 = OutOfFuel.
Proof.
  apply (print_grad_graph_never_fails 3 18 0 loss_world
           (PyObj "tensor(...)" (Some (Some 17%positive)) None true None None)
           (PyObj "<MeanBackward0 object at 0x11>" None
              (Some [(Some 15%positive, 0)]) false None None)).
  - apply provenance_graphb_sound. vm_compute. reflexivity.
  - reflexivity.
  - reflexivity.
  - reflexivity.
Defined.

(** [print_grad_graph_store_extension] on the product of a leaf with
    itself, before and after one more object is stored. *)
Lemma print_grad_graph_store_extension_witness :
  ∃ r ls,
    print_grad_graph 2 5 0 square_world = (r, printed square_world ls) ∧
    print_grad_graph 2 5 0
      (World (<[9%positive := plain_object "x"]> (heap square_world)) 10 [])
    = (r, printed
            (World (<[9%positive := plain_object "x"]> (heap square_world))
               10 []) ls).
Proof.
  apply (print_grad_graph_store_extension 2 5 0 square_world
    (World (<[9%positive := plain_object "x"]> (heap square_world)) 10 [])).
  - apply insert_subseteq. reflexivity.
  - vm_compute. discriminate.
Defined.

(** [print_grad_graph_tower_lines] on the product of a leaf with itself:
    three lines for two nodes. *)
Lemma print_grad_graph_tower_lines_witness :
  ∃ ls,
    print_grad_graph 2 4 0 square_world = (Returned tt, printed square_world ls) ∧
    length ls = 3%nat.
Proof.
  apply (print_grad_graph_tower_lines (heap square_world) 1 4 2 0 square_world).
  - simpl. eexists _, 3%positive, 0, 0. split; [reflexivity|].
    split; [reflexivity|]. split; [reflexivity|].
    eexists. split; [reflexivity|]. split; reflexivity.
  - lia.
  - reflexivity.
Defined.

(** [LinearRegressionModel_init_leaves] from the empty store. *)
Lemma LinearRegressionModel_init_leaves_witness :
  ∃ m w' acc_w acc_b,
    LinearRegressionModel_init init_world = (Returned m, w') ∧
    fresh_from w' ∧ extends init_world w' ∧
    leaf (heap w') (weights m) (Some acc_w) ∧
    leaf (heap w') (bias m) (Some acc_b) ∧
    weights m ≠ bias m ∧ acc_w ≠ acc_b ∧
    heap init_world !! weights m = None ∧ heap init_world !! bias m = None.
Proof.
  apply (LinearRegressionModel_init_leaves init_world).
  apply fresh_fromb_sound. reflexivity.
Defined.

(** [forward_twice_shares_markers] on the notebook's model, its tracked
    input and an untracked one. *)
Lemma forward_twice_shares_markers_witness :
  ∃ y y' w' add_n mul_n add_n' mul_n',
    (y ← forward notebook_model 7; y' ← forward notebook_model 9; mret (y, y'))
      tracked_world
    = (Returned (y, y'), w') ∧
    result_of (heap w') y add_n ∧
    backward_node (heap w') add_n "AddBackward0"
      [(Some mul_n, 0); (Some 6%positive, 0)] ∧
    backward_node (heap w') mul_n "MulBackward0"
      [(Some 3%positive, 0); (Some 8%positive, 0)] ∧
    result_of (heap w') y' add_n' ∧
    backward_node (heap w') add_n' "AddBackward0"
      [(Some mul_n', 0); (Some 6%positive, 0)] ∧
    backward_node (heap w') mul_n' "MulBackward0"
      [(Some 3%positive, 0); (None, 0)] ∧
    add_n ≠ add_n' ∧ mul_n ≠ mul_n' ∧ y ≠ y'.
Proof.
  apply (forward_twice_shares_markers tracked_world notebook_model 7 9 3 6
           (Some 8%positive) None).
  - apply fresh_fromb_sound. vm_compute. reflexivity.
  - by_lookup. by_lookup.
  - by_lookup. by_lookup.
  - by_lookup. by_lookup.
  - by_lookup.
Defined.

(** [cell_loss_output] from the empty store. *)
Lemma cell_loss_output_witness :
  ∃ m loss w' mean_n abs_n sub_n add_n mul_n acc_w acc_b fuel0,
    cell_loss init_world = (Returned (m, loss), w') ∧
    leaf_marker (heap w') acc_w (weights m) ∧
    leaf_marker (heap w') acc_b (bias m) ∧
    ∀ fuel, (fuel0 ≤ fuel)%nat →
      print_grad_graph fuel loss 0 w'
      = (Returned tt,
         printed w'
           [torch.node_str "MeanBackward0" mean_n;
            "    " +:+ torch.node_str "AbsBackward0" abs_n;
            "        " +:+ torch.node_str "SubBackward0" sub_n;
            "            " +:+ torch.node_str "AddBackward0" add_n;
            "                " +:+ torch.node_str "MulBackward0" mul_n;
            "                    " +:+ torch.node_str "AccumulateGrad" acc_w;
            "                " +:+ torch.node_str "AccumulateGrad" acc_b]).
Proof.
  apply (cell_loss_output init_world).
  apply fresh_fromb_sound. reflexivity.
Defined.

(** [mul_ones] on [mat1]. *)
Lemma mul_ones_witness :
  torch_int.mul mat1 (torch_int.ones 2 2) = Some mat1.
Proof.
  apply (mul_ones mat1 2 2).
  - reflexivity.
  - repeat constructor; unfold in_int32; lia.
Defined.

(** [mm_ones] on [mat1]. *)
Lemma mm_ones_witness :
  torch_int.mm mat1 (torch_int.ones 2 2)
  = Some (map (λ row, repeat (torch_int.wrap32 (row_sum row)) 2) mat1).
Proof.
  apply (mm_ones mat1 2 2 2).
  - reflexivity.
  - lia.
Defined.
